(* ===== verification/_CoqProject ===== *)
-Q . S2P
Prelude.v
Jni.v
Semaphore.v
Transport.v
State.v
Accept.v
AcceptFacts.v
Termination.v
Close.v
System.v
Contexts.v
Memory.v
Registration.v
