(* ===== verification/Prelude.v ===== *)
(** * A verification development of the LLCP service-socket bridge of the
      Android NFC stack ([src/jni/com_android_nfc_NativeLlcpServiceSocket.cpp])

    ** The program

    The file implements the two native methods of the Java class
    [NativeLlcpServiceSocket]. [doAccept] (lines 46-138) turns libnfc's
    asynchronous [phLibNfc_Llcp_Accept] into a blocking call: it waits on
    the process-wide Listen Gate [nfc_jni_llcp_listen_sem] (line 58), sets
    up a per-call completion context [cb_data] (a status and a semaphore,
    line 64), allocates a working buffer of [miu*rw+miu+linearBufferLength]
    bytes (line 74), calls the transport under the reentrance mutex
    (lines 79-86), blocks on the context's semaphore (line 95) until
    libnfc's thread runs [nfc_jni_llcp_accept_socket_callback] (lines
    31-40), and builds the Java [NativeLlcpSocket] (lines 106-131) or
    returns [null] through [clean_and_return] (lines 135-137). [doClose]
    (lines 140-162) calls [phLibNfc_Llcp_Close] under the mutex. [gMethods]
    and [register_com_android_nfc_NativeLlcpServiceSocket] (lines 165-183)
    register both with the JVM. The components interact through shared
    state: the Listen Gate and [hIncommingLlcpSocket] written by the NFC
    manager's listen callback, the completion context written by libnfc's
    thread, the mutex shared with every other entry into libnfc.

    ** The files

    - [Prelude] (this file): the scope [nfc_scope] with the notations
      [s32[ e ]] and [u32[ e ]] for the 32-bit wrap-around of C
      arithmetic, the hint databases [nfc] and [nfc_rw], the invariant
      lemma [rtc_preserved], and the modular-arithmetic lemmas shared by
      the files.
    - [Jni]: the data of the JNI and libnfc layers ([NFCSTATUS] codes,
      [sSocketOptions], [phNfc_sData_t], the Java [NativeLlcpSocket]), the
      [int] evaluation of the buffer length ([working_buffer_int],
      [working_buffer_length]) and the [(jint)] cast of the handle.
    - [Semaphore]: POSIX [sem_init]/[sem_post]/[sem_wait] on a token count
      (module [Sem]) and the token accounting of a run ([SemFacts]).
    - [Transport]: libnfc, which is not in the repository, as the
      typeclass [LlcpTransport] (accept, close, the owed completions, the
      next completion, the next abandoned accept) with the laws
      [LlcpTransportLaws] the spec gives it; [SimTransport] is a scripted instance that satisfies them and
      runs the concrete scenarios.
    - [State]: the [World] record the threads share (gate, global handle,
      completion contexts by frame address, live frames, heap, mutex
      owner, detected faults, transport state), and the shared operations:
      the accept callback, [nfc_cb_data_init]/[nfc_cb_data_deinit],
      [malloc], [REENTRANCE_LOCK]/[REENTRANCE_UNLOCK], the arrival
      notification, and the two steps of libnfc's thread:
      [transport_complete] (the accept callback) and [transport_fail]
      (the error callback [nfc_jni_llcp_transport_socket_err_callback],
      which only logs).
    - [Accept]: [doAccept] as a thread with a program counter [accept_pc]
      at each blocking point (gate, mutex, transport call, completion
      wait); one function per stretch of source between them
      ([accept_prepare], [accept_call], [accept_wake], [clean_and_return],
      [return_early]); [accept_step] and [accept_interrupt] (the [EINTR]
      returns); [doAccept] runs the thread alone against libnfc.
    - [AcceptFacts]: the spec's contract [AcceptSpec.accept_contract] over
      the error taxonomy of its section 7, the refinement theorem, the
      value returned on every branch, and what each exit path leaves in
      memory.
    - [Termination]: [doAccept] returns within its fuel whatever libnfc
      still owes, with the number of owed completions as the measure.
    - [Close]: [doClose] as a thread ([close_step]) and its theorems.
    - [System]: any number of accept and close threads, libnfc and the
      arrivals interleaved by the step relation [sys_step]; the executable
      scheduler [sys_run]; invariants by induction on the steps; the
      behaviour of the gate on one arrival; the concrete interleaving of
      the handle race.
    - [Contexts]: the invariant [ctx_inv] of the completion contexts over
      every interleaving (fresh distinct addresses, one signal per
      context), the effect of each kind of step on the contexts
      ([same_view]), what an abandoned accept does to its waiting
      thread, and the schedule under which a waiting accept returns.
    - [Memory]: the memory the bridge uses (contexts, live frames, heap
      blocks), the buffer pointer [pc_buffer] a [doAccept] thread holds
      between [malloc] (line 74) and its return, the invariant that
      keeps these apart, with one preservation lemma per kind of step,
      and the theorem that no two threads share a working buffer.
    - [Registration]: the [gMethods] table, [jniRegisterNativeMethods] and
      a parser of JNI type descriptors.

    ** What the theorems show (claims C1-C24)

    - The contract (C1-C2): once the gate is signalled and no other accept
      is outstanding, [doAccept] returns, and returns what the spec's
      contract prescribes, for every lawful transport and every outcome of
      [sem_init], of the object creation and of an interruption (C1); C2
      gives the value on each branch of the code.
    - The departures from the spec (C3-C9, C14, C16, C23): the unchecked
      [malloc] (C3), the partial object returned after a failed class
      lookup (C4), the context and buffer leaked when the transport
      rejects the request (C5), the buffer never freed on any path (C6),
      the cleanup done on every path after a pending accept (C7), the
      completion delivered into a destroyed context after an interrupted
      wait (C8), the race by which the returned object carries the handle
      of a later connection (C9), the connection lost when two arrive
      before an accept reads the handle (C23), the 32-bit wrap-around of
      the buffer length (C14), and the [sem_destroy] of a semaphore
      [sem_init] failed on, when the cleanup path runs after a failed
      [nfc_cb_data_init] (C16).
    - Synchronisation (C10-C11, C18, C21-C22): one passage of the Listen
      Gate per arrival and mutual exclusion of the reentrance mutex, both
      in every interleaving of any number of threads with libnfc and the
      arrivals; the holder of the mutex can always run and release it, on
      every branch (C22); each completion context is owned by one thread
      and signalled at most once, only after its status is written (C18);
      one arrival unblocks exactly one waiting accept (C21). The
      semaphore accounting of [Semaphore] underlies C10.
    - Termination and liveness (C17, C19-C20): [doAccept] returns once the
      gate is signalled, whatever libnfc owes (C17); in the process, a
      waiting accept whose completion is owed returns under a schedule
      (C20), and one whose accept libnfc abandoned through the error
      callback never returns unless interrupted (C19, a departure from
      the spec's sections 4.2 and 6).
    - Close (C12): the value returned and the state left.
    - Machine integers (C13-C14): exact length when it fits, wrap-around
      modulo [2^32] otherwise.
    - Registration (C15): each registered descriptor names the function
      and the types of its model.
    - Working buffers (C24): in every interleaving two [doAccept] threads
      never hold the same buffer: each comes from its own [malloc] and no
      step frees a block.

    The executable scheduler [sys_run] is sound for the step relation
    ([sys_run_sound]): the concrete interleavings of C9, C21, C23 and of
    the witnesses are runs of the process.

    ** Bounds and fuel

    [doAccept] runs with fuel [6 + length (llcp_owed t)]. The thread
    needs three steps to reach the transport call (gate, lock, call), one
    step per completion libnfc delivers while it waits (at most the
    completions owed before the call plus its own) and one to wake: C17
    proves that [5 + length (llcp_owed t)] steps suffice for any number
    of owed completions, so the fuel, one more, is never what stops the
    run. C1 and C2 compute the value returned when nothing is owed.
    [parse_params] uses the length of the descriptor as fuel; every type
    consumes a character.

    ** What is not modelled, and where the model departs from C

    The LLCP protocol inside libnfc (only its interface and laws); the
    body of the error callback [nfc_jni_llcp_transport_socket_err_callback]
    is outside the repository and is modelled as the logging it does,
    writing nothing through its context; the JNI reflection calls
    ([GetFieldID]/[SetIntField]) beyond their effect on the three fields;
    logging ([TRACE], [LOGE], [LOGD], [LOG_CALLBACK]), which writes to the
    Android log and is never read back, so no behaviour depends on it.
    The widths of the fields of [phLibNfc_Llcp_sSocketOptions_t] are
    declared outside the repository; the options keep the [jint] values.
    The struct [nfc_jni_callback_data] and [nfc_cb_data_init] are declared
    outside the repository; the status a fresh context holds is modelled
    as absent ([None]), which no path reads before a post. Thread
    scheduling is free: every interleaving of [sys_step] is allowed.

    Where C has undefined behaviour the model makes a choice, recorded
    here. The signed [int] overflow of line 74 is modelled as two's
    complement wrap-around, and the conversion to [malloc]'s [size_t] as
    reduction modulo [2^32], which is right for the 32-bit targets of
    this code and not for a 64-bit [size_t]. Each frame of [doAccept]
    gets a fresh address that is never reused, unlike a stack slot; a
    callback into a context that was destroyed (after the interrupted
    wait of C8) writes nothing and records the fault
    [CallbackOnDeadContext], where C writes through a dangling pointer.
    The invariants over every interleaving (C18 in particular) therefore
    also describe runs that already contain that fault; in C, a reused
    stack slot could then be posted twice. *)

From Stdlib Require Import ZArith Lia.
From stdpp Require Export base list gmap.

(** ** Machine integers

    C integers are kept as [Z] together with their width; the wrap-around
    of a conversion or of an arithmetic operation is written out with
    [wrap_u] (unsigned, modulo [2^w]) and [wrap_s] (two's complement). *)

Declare Scope nfc_scope.
Delimit Scope nfc_scope with nfc.
Local Open Scope Z_scope.

Definition wrap_u (w z : Z) : Z := z mod 2 ^ w.

Definition wrap_s (w z : Z) : Z := (z + 2 ^ (w - 1)) mod 2 ^ w - 2 ^ (w - 1).

Definition in_s (w z : Z) : bool := (- 2 ^ (w - 1) <=? z) && (z <? 2 ^ (w - 1)).

Definition in_u (w z : Z) : bool := (0 <=? z) && (z <? 2 ^ w).

(** [s32[ e ]] is the value of the 32-bit [int] expression [e] computed in C. *)
Notation "'s32[' e ']'" := (wrap_s 32 e) (at level 0, e at level 200) : nfc_scope.
Notation "'u32[' e ']'" := (wrap_u 32 e) (at level 0, e at level 200) : nfc_scope.

Create HintDb nfc.
Create Rewrite HintDb nfc_rw.

(** ** Tactics shared by the development *)


(** Turn the boolean range tests into arithmetic facts. *)
Ltac unfold_ranges :=
  unfold in_s, in_u in *;
  repeat match goal with
  | H : (_ && _)%bool = true |- _ => apply andb_prop in H; destruct H
  | H : (_ <=? _) = true |- _ => apply Z.leb_le in H
  | H : (_ <? _) = true |- _ => apply Z.ltb_lt in H
  | |- (_ && _)%bool = true => apply andb_true_intro; split
  | |- (_ <=? _) = true => apply Z.leb_le
  | |- (_ <? _) = true => apply Z.ltb_lt
  end.

(** ** Generic lemmas on the wrap-around functions *)

Section Wrap.
Context (w : Z) (Hw : 0 < w).

Lemma pow_pos_half : 0 < 2 ^ (w - 1).
Proof. apply Z.pow_pos_nonneg; lia. Qed.

Lemma pow_split : 2 ^ w = 2 * 2 ^ (w - 1).
Proof.
  replace w with (Z.succ (w - 1)) at 1 by lia.
  rewrite Z.pow_succ_r; lia.
Qed.

Lemma wrap_s_range z : in_s w (wrap_s w z) = true.
Proof.
  pose proof pow_pos_half. pose proof pow_split.
  unfold wrap_s. unfold_ranges;
  pose proof (Z.mod_pos_bound (z + 2 ^ (w - 1)) (2 ^ w)); lia.
Qed.

Lemma wrap_s_small z : in_s w z = true -> wrap_s w z = z.
Proof.
  intros H. unfold_ranges. pose proof pow_split. unfold wrap_s.
  rewrite Z.mod_small; lia.
Qed.

Lemma wrap_u_range z : in_u w (wrap_u w z) = true.
Proof.
  pose proof pow_pos_half. pose proof pow_split.
  unfold wrap_u. unfold_ranges; pose proof (Z.mod_pos_bound z (2 ^ w)); lia.
Qed.

Lemma wrap_u_small z : in_u w z = true -> wrap_u w z = z.
Proof. intros H. unfold_ranges. unfold wrap_u. rewrite Z.mod_small; lia. Qed.

(** [wrap_s] is a congruence modulo [2^w]: the wrap-around of an inner
    operation does not change the wrap-around of the result. *)
Lemma wrap_s_mod z : wrap_s w (z mod 2 ^ w) = wrap_s w z.
Proof.
  unfold wrap_s. f_equal. rewrite Z.add_mod_idemp_l; [done|].
  pose proof pow_pos_half. pose proof pow_split. lia.
Qed.

Lemma wrap_s_eq_mod z : wrap_s w z mod 2 ^ w = z mod 2 ^ w.
Proof.
  pose proof pow_pos_half. pose proof pow_split. unfold wrap_s.
  rewrite Zminus_mod_idemp_l.
  replace (z + 2 ^ (w - 1) - 2 ^ (w - 1)) with z by lia. done.
Qed.

Lemma wrap_s_add_l a b : wrap_s w (wrap_s w a + b) = wrap_s w (a + b).
Proof.
  rewrite <- (wrap_s_mod (wrap_s w a + b)), Zplus_mod, wrap_s_eq_mod,
    <- Zplus_mod, wrap_s_mod. done.
Qed.

Lemma wrap_s_mul_l a b : wrap_s w (wrap_s w a * b) = wrap_s w (a * b).
Proof.
  rewrite <- (wrap_s_mod (wrap_s w a * b)), Zmult_mod, wrap_s_eq_mod,
    <- Zmult_mod, wrap_s_mod. done.
Qed.

(** Reading a signed value as unsigned is the unsigned wrap of the
    exact value. *)
Lemma wrap_u_wrap_s z : wrap_u w (wrap_s w z) = wrap_u w z.
Proof. unfold wrap_u. apply wrap_s_eq_mod. Qed.

End Wrap.

(** ** Invariants of a transition relation *)

(** A property preserved by every step holds all along a run
    (stdpp's [rtc] is the reflexive-transitive closure). *)
Lemma rtc_preserved {A} (R : relation A) (P : A -> Prop) :
  (forall x y, P x -> R x y -> P y) -> forall x y, rtc R x y -> P x -> P y.
Proof. intros Hstep x y Hrtc. induction Hrtc; eauto. Qed.
