(* ===== verification/Jni.v ===== *)
(** * Data of the JNI layer and of the libnfc LLCP API

    The C types the bridge of [com_android_nfc_NativeLlcpServiceSocket.cpp]
    manipulates: [NFCSTATUS] codes, the [jint] parameters of [doAccept],
    the socket options and the working buffer passed to
    [phLibNfc_Llcp_Accept], the Java object [NativeLlcpSocket] it returns,
    and the 32-bit arithmetic of the working-buffer length (line 74-75). *)

From S2P Require Import Prelude.
Local Open Scope Z_scope.
Local Open Scope nfc_scope.

(** ** Status codes of libnfc ([phNfcStatus.h]) *)

Definition NFCSTATUS := Z.
Definition NFCSTATUS_SUCCESS : NFCSTATUS := 0x0000.
Definition NFCSTATUS_PENDING : NFCSTATUS := 0x000D.
Definition NFCSTATUS_FAILED : NFCSTATUS := 0x00FF.

(** A [jint] is a 32-bit signed integer, a [phLibNfc_Handle] a 32-bit
    unsigned one. *)
Definition jint := Z.
Definition phLibNfc_Handle := Z.

(** [phLibNfc_Llcp_sSocketOptions_t]: the two fields set at lines 70-71. *)
Record sSocketOptions := mkOptions { miu : Z; rw : Z }.

(** [phNfc_sData_t]: a buffer pointer ([None] is [NULL]; [Some a] is the
    address of a block of the heap) and its length ([uint32_t]). *)
Record phNfc_sData_t := mkData { buffer : option nat; length : Z }.

(** The Java object [com.android.nfc.NativeLlcpSocket] as the bridge sees
    it: the three [int] fields it sets at lines 121-131. A fresh object has
    Java's default field values. *)
Record NativeLlcpSocket := mkSocket { mHandle : jint; mLocalMiu : jint; mLocalRw : jint }.

Definition new_NativeLlcpSocket : NativeLlcpSocket := mkSocket 0 0 0.

(** ** The working-buffer length (lines 74-75)

    [(miu*rw)+miu+linearBufferLength] is evaluated in [int] (the three
    operands are [jint]s), then converted to [size_t] for [malloc] and
    stored in the [uint32_t] field [length]; on the 32-bit targets of this
    code both conversions are the unsigned reading of the [int]. *)

Definition working_buffer_int (miu rw linearBufferLength : jint) : Z :=
  s32[ s32[ s32[ miu * rw ] + miu ] + linearBufferLength ].

Definition working_buffer_length (miu rw linearBufferLength : jint) : Z :=
  u32[ working_buffer_int miu rw linearBufferLength ].

(** [(jint)hIncommingLlcpSocket] (line 123): the handle read as [int]. *)
Definition handle_to_jint (h : phLibNfc_Handle) : jint := s32[ h ].

(** ** Lemmas on the buffer arithmetic *)

Lemma working_buffer_int_exact miu rw lbl :
  working_buffer_int miu rw lbl = s32[ miu * rw + miu + lbl ].
Proof.
  unfold working_buffer_int.
  rewrite !wrap_s_add_l, <- !Z.add_assoc, wrap_s_add_l by lia. done.
Qed.

Lemma working_buffer_length_mod miu rw lbl :
  working_buffer_length miu rw lbl = (miu * rw + miu + lbl) mod 2 ^ 32.
Proof.
  unfold working_buffer_length. rewrite working_buffer_int_exact.
  apply wrap_u_wrap_s. lia.
Qed.

(** C13. When the three arguments are non-negative and the exact length
    fits in an [int], the length passed to [malloc] and stored in
    [sWorkingBuffer.length] is [miu*rw + miu + linearBufferLength]. *)
Theorem working_buffer_length_exact miu rw lbl :
  0 <= miu -> 0 <= rw -> 0 <= lbl -> miu * rw + miu + lbl < 2 ^ 31 ->
  working_buffer_length miu rw lbl = miu * rw + miu + lbl.
Proof.
  intros Hm Hr Hl Hlt. rewrite working_buffer_length_mod.
  apply Z.mod_small. split; [nia | lia].
Qed.

(** C14. Overflow behaviour of lines 74-75: whatever the arguments, the
    length is the exact value reduced modulo [2^32]; the code checks no
    bound (the spec's data model requires that it must not overflow). *)
Theorem working_buffer_length_wraps miu rw lbl :
  in_u 32 (working_buffer_length miu rw lbl) = true /\
  working_buffer_length miu rw lbl = (miu * rw + miu + lbl) mod 2 ^ 32.
Proof.
  split; [apply wrap_u_range; lia | apply working_buffer_length_mod].
Qed.

(** Witness of C13: the parameters of a typical LLCP service. *)
Lemma working_buffer_length_exact_witness :
  working_buffer_length 128 1 1024 = 128 * 1 + 128 + 1024.
Proof. apply working_buffer_length_exact; lia. Defined.
