(* ===== verification/Semaphore.v ===== *)
(** * POSIX semaphores as the bridge uses them

    The two synchronisation objects of [doAccept] are POSIX semaphores: the
    process-wide listen semaphore [nfc_jni_llcp_listen_sem] (the Listen
    Gate) and the per-call [cb_data.sem] of the completion context. This
    file models [sem_init], [sem_post] and the non-blocking part of
    [sem_wait] (a wait on a zero count blocks; the blocked state and its
    interruption belong to the thread model of [System.v]), and proves the
    token accounting: every successful wait consumes exactly one post or one
    unit of the initial value. *)

From S2P Require Import Prelude.

Module Sem.

Record sem_t := mkSem { value : nat }.

(** [sem_init(&s, 0, v)] *)
Definition sem_init (v : nat) : sem_t := mkSem v.

(** [sem_post(&s)] *)
Definition sem_post (s : sem_t) : sem_t := mkSem (S (value s)).

(** [sem_wait(&s)] when it does not block: it takes one unit. [None]
    means the calling thread blocks. *)
Definition sem_trywait (s : sem_t) : option sem_t :=
  match value s with
  | O => None
  | S n => Some (mkSem n)
  end.

(** A sequence of operations on one semaphore, by any threads; [run]
    fails when a wait would block at that point. *)
Inductive op := Post | Wait.

#[export] Instance op_eq_dec : EqDecision op.
Proof. solve_decision. Defined.

Fixpoint run (ops : list op) (s : sem_t) : option sem_t :=
  match ops with
  | [] => Some s
  | Post :: ops' => run ops' (sem_post s)
  | Wait :: ops' => sem_trywait s ≫= run ops'
  end.

Definition count_op (o : op) (ops : list op) : nat :=
  length (filter (fun o' => o' = o) ops).

Lemma sem_trywait_Some s s' : sem_trywait s = Some s' <-> value s = S (value s').
Proof.
  unfold sem_trywait. destruct s as [[|n]], s' as [m]; simpl;
    split; intros H; simplify_eq; done.
Qed.

Lemma sem_trywait_None s : sem_trywait s = None <-> value s = 0.
Proof. unfold sem_trywait. destruct s as [[|n]]; simpl; split; done. Qed.

Lemma count_op_cons o o' ops :
  count_op o (o' :: ops) = (if decide (o' = o) then 1 else 0) + count_op o ops.
Proof. unfold count_op. rewrite filter_cons. case_decide; done. Qed.

End Sem.

#[export] Hint Rewrite Sem.count_op_cons : nfc_rw.

Module SemFacts.
Import Sem.

(** Token accounting of a run: the final value plus the number of
    successful waits equals the initial value plus the number of posts. *)
Lemma run_accounting ops s s' :
  run ops s = Some s' ->
  value s' + count_op Wait ops = value s + count_op Post ops.
Proof.
  revert s. induction ops as [|[] ops IH]; intros s Hrun; simpl in Hrun.
  - simplify_eq. done.
  - apply IH in Hrun. autorewrite with nfc_rw. simpl in *. lia.
  - destruct (sem_trywait s) as [s1|] eqn:Hw; simpl in Hrun; [|done].
    apply sem_trywait_Some in Hw. apply IH in Hrun.
    autorewrite with nfc_rw. simpl. lia.
Qed.

(** The accounting read backwards: a run in which the waits never
    outnumber the tokens available so far never blocks. *)
Lemma run_not_blocked ops s :
  (forall k, count_op Wait (take k ops) <= value s + count_op Post (take k ops)) ->
  is_Some (run ops s).
Proof.
  revert s. induction ops as [|[] ops IH]; intros s Hk; simpl; [by eauto|..].
  - apply IH. intros k. specialize (Hk (S k)). simpl in Hk.
    autorewrite with nfc_rw in Hk. simpl in *. lia.
  - destruct s as [[|n]]; simpl.
    + specialize (Hk 1). simpl in Hk. autorewrite with nfc_rw in Hk.
      simpl in Hk. unfold count_op in Hk. simpl in Hk. lia.
    + apply IH. intros k. specialize (Hk (S k)). simpl in Hk.
      autorewrite with nfc_rw in Hk. simpl in *. lia.
Qed.
End SemFacts.

(** Token accounting of a semaphore (the Listen Gate and each
    completion context): along any sequence of posts and waits that does
    not block, the final value plus the number of successful waits equals
    the initial value plus the number of posts. *)
Theorem sem_run_accounting ops s s' :
  Sem.run ops s = Some s' ->
  Sem.value s' + Sem.count_op Sem.Wait ops = Sem.value s + Sem.count_op Sem.Post ops.
Proof. apply SemFacts.run_accounting. Qed.

(** The Listen Gate hands out at most one passage per signal: in any
    run, the waits that succeed are at most the initial tokens plus the
    posts; from an empty gate, one post lets exactly one of two waiters
    through. *)
Theorem sem_one_post_one_waiter ops s s' :
  Sem.run ops s = Some s' ->
  Sem.count_op Sem.Wait ops <= Sem.value s + Sem.count_op Sem.Post ops /\
  Sem.run [Sem.Post; Sem.Wait] (Sem.sem_init 0) = Some (Sem.sem_init 0) /\
  Sem.run [Sem.Post; Sem.Wait; Sem.Wait] (Sem.sem_init 0) = None.
Proof.
  intros Hrun. apply SemFacts.run_accounting in Hrun. split_and!; [lia | done | done].
Qed.
