(* ===== verification/Transport.v ===== *)
(** * The libnfc LLCP transport, as an interface

    The bridge calls two functions of libnfc, [phLibNfc_Llcp_Accept]
    (line 80) and [phLibNfc_Llcp_Close] (line 150), and libnfc calls back
    [nfc_jni_llcp_accept_socket_callback] (line 31) from its own thread
    once an accept it reported as [NFCSTATUS_PENDING] completes. libnfc is
    not part of this repository; the class [LlcpTransport] states the
    operations the bridge uses and [LlcpTransportLaws] the contract the
    spec (sections 4.2 and 6) gives them: a pending accept owes exactly one
    completion callback, any other immediate status owes none, a completion
    pays one debt, an owed completion is eventually delivered, and a
    close owes no callback. The spec (section
    4.2) makes the error callback the other outcome of a pending accept:
    [llcp_fail] abandons an owed accept, paying its debt, instead of
    completing it. The theorems of the
    bridge are proved for every lawful transport; [SimTransport] is a
    scripted instance (the "simulated transport" of the spec's section 8)
    that discharges the laws and runs the concrete scenarios. *)

From S2P Require Import Prelude Jni.

Class LlcpTransport (T : Type) := {
  (** [phLibNfc_Llcp_Accept(hSocket, &sOptions, &sWorkingBuffer, err_cb,
      accept_cb, pContext)]: its immediate status; [pContext] is the
      address of the caller's completion context. *)
  phLibNfc_Llcp_Accept :
    T -> phLibNfc_Handle -> sSocketOptions -> phNfc_sData_t -> nat -> NFCSTATUS * T;
  (** [phLibNfc_Llcp_Close(hSocket)] *)
  phLibNfc_Llcp_Close : T -> phLibNfc_Handle -> NFCSTATUS * T;
  (** the completion contexts whose accept callback is still due *)
  llcp_owed : T -> list nat;
  (** the next accept completion libnfc delivers from its thread: the
      context it calls back and the status it reports *)
  llcp_complete : T -> option (nat * NFCSTATUS * T);
  (** the next accept libnfc abandons instead: it calls the error
      callback given to [phLibNfc_Llcp_Accept] (line 83) with the
      context and an error code *)
  llcp_fail : T -> option (nat * Z * T);
}.

Class LlcpTransportLaws (T : Type) `{!LlcpTransport T} := {
  accept_pending_owes t h o b c t' :
    phLibNfc_Llcp_Accept t h o b c = (NFCSTATUS_PENDING, t') ->
    llcp_owed t' ≡ₚ c :: llcp_owed t;
  accept_other_owes_nothing t h o b c r t' :
    phLibNfc_Llcp_Accept t h o b c = (r, t') -> r <> NFCSTATUS_PENDING ->
    llcp_owed t' = llcp_owed t;
  complete_pays t c s t' :
    llcp_complete t = Some (c, s, t') -> llcp_owed t ≡ₚ c :: llcp_owed t';
  fail_pays t c code t' :
    llcp_fail t = Some (c, code, t') -> llcp_owed t ≡ₚ c :: llcp_owed t';
  complete_progress t :
    llcp_owed t <> [] -> is_Some (llcp_complete t);
  close_owes_nothing t h r t' :
    phLibNfc_Llcp_Close t h = (r, t') -> llcp_owed t' = llcp_owed t;
}.

(** ** A scripted transport *)

Module SimTransport.

Record state := mkState {
  accept_rets : list NFCSTATUS;   (* immediate statuses of the next accepts *)
  statuses : list NFCSTATUS;      (* statuses of the next completions *)
  owed : list (nat * phLibNfc_Handle);
  opened : gset Z;
}.

Definition accept (t : state) (h : phLibNfc_Handle) (_ : sSocketOptions)
    (_ : phNfc_sData_t) (c : nat) : NFCSTATUS * state :=
  let r := default NFCSTATUS_PENDING (head (accept_rets t)) in
  (r, mkState (tail (accept_rets t)) (statuses t)
        (if decide (r = NFCSTATUS_PENDING) then owed t ++ [(c, h)] else owed t)
        (opened t)).

Definition close (t : state) (h : phLibNfc_Handle) : NFCSTATUS * state :=
  if decide (h ∈ opened t)
  then (NFCSTATUS_SUCCESS, mkState (accept_rets t) (statuses t) (owed t) (opened t ∖ {[h]}))
  else (NFCSTATUS_FAILED, t).

Definition complete (t : state) : option (nat * NFCSTATUS * state) :=
  match owed t with
  | [] => None
  | (c, h) :: rest =>
      let s := default NFCSTATUS_SUCCESS (head (statuses t)) in
      Some (c, s, mkState (accept_rets t) (tail (statuses t)) rest
                    (if decide (s = NFCSTATUS_SUCCESS) then {[h]} ∪ opened t else opened t))
  end.

(** An abandoned accept reports the next scripted status as its error
    code. *)
Definition fail (t : state) : option (nat * Z * state) :=
  match owed t with
  | [] => None
  | (c, h) :: rest =>
      Some (c, default NFCSTATUS_FAILED (head (statuses t)),
            mkState (accept_rets t) (tail (statuses t)) rest (opened t))
  end.

#[export] Instance sim_transport : LlcpTransport state := {
  phLibNfc_Llcp_Accept := accept;
  phLibNfc_Llcp_Close := close;
  llcp_owed t := map fst (owed t);
  llcp_complete := complete;
  llcp_fail := fail;
}.

#[export] Instance sim_transport_laws : LlcpTransportLaws state.
Proof.
  split; simpl.
  - intros t h o b c t'. unfold accept. intros [= Hr <-]. simpl.
    rewrite Hr, decide_True by done. rewrite map_app. simpl.
    symmetry. apply Permutation_cons_append.
  - intros t h o b c r t'. unfold accept. intros [= Hr <-] Hne. simpl.
    rewrite decide_False by (by rewrite Hr). done.
  - intros t c s t'. unfold complete.
    destruct (owed t) as [|[c0 h0] rest]; intros; simplify_eq; done.
  - intros t c code t'. unfold fail.
    destruct (owed t) as [|[c0 h0] rest]; intros; simplify_eq; done.
  - intros t. unfold complete. destruct (owed t) as [|[] ?]; simpl; by eauto.
  - intros t h r t'. unfold close. case_decide; intros; simplify_eq; done.
Qed.

End SimTransport.

#[export] Existing Instance SimTransport.sim_transport.
#[export] Existing Instance SimTransport.sim_transport_laws.
