(* ===== verification/State.v ===== *)
(** * The process state the bridge shares with libnfc

    [World] gathers what [doAccept], [doClose] and the libnfc thread read
    and write: the Listen Gate [nfc_jni_llcp_listen_sem] and the global
    [hIncommingLlcpSocket] (lines 24-25), the completion contexts
    [struct nfc_jni_callback_data] of the running [doAccept] calls
    (stack variables, named by the address of their frame), the heap
    blocks of the working buffers, the reentrance mutex taken by
    [REENTRANCE_LOCK] (lines 79, 86, 149, 151), the undefined behaviours
    observed so far, and the state of the transport. This file holds the
    operations shared by the threads: the accept callback of libnfc
    (lines 31-40), [nfc_cb_data_init]/[nfc_cb_data_deinit], the mutex and
    the arrival notification that feeds the Listen Gate, and the two
    steps of the libnfc thread: a completion through the accept callback
    and an abandoned accept through the error callback. *)

From S2P Require Import Prelude Jni Semaphore Transport.

(** [struct nfc_jni_callback_data]: the result slot and the semaphore
    the caller blocks on. [None] is a status nobody has written. *)
Record cb_data := mkCb { status : option NFCSTATUS; sem : Sem.sem_t }.

(** Undefined behaviour the model detects instead of running into. *)
Inductive fault :=
| DestroyUninitialised (ctx : nat)   (* sem_destroy of a semaphore sem_init failed on *)
| CallbackOnDeadContext (ctx : nat). (* libnfc writes a context that is gone *)

#[export] Instance fault_eq_dec : EqDecision fault.
Proof. solve_decision. Defined.

Section World.
Context {T : Type}.

Record World := mkWorld {
  listen_sem : Sem.sem_t;            (* *nfc_jni_llcp_listen_sem *)
  hIncoming : phLibNfc_Handle;       (* hIncommingLlcpSocket *)
  ctxs : gmap nat cb_data;           (* initialised completion contexts *)
  frames : gset nat;                 (* contexts whose doAccept frame is live *)
  heap : gmap nat Z;                 (* malloc'd blocks and their size *)
  next_addr : nat;                   (* fresh addresses *)
  lock : option nat;                 (* owner of the reentrance mutex *)
  faults : list fault;
  tr : T;
}.

(** Field updates. *)
Definition set_listen (s : Sem.sem_t) (w : World) : World :=
  mkWorld s (hIncoming w) (ctxs w) (frames w) (heap w) (next_addr w) (lock w) (faults w) (tr w).
Definition set_hIncoming (h : phLibNfc_Handle) (w : World) : World :=
  mkWorld (listen_sem w) h (ctxs w) (frames w) (heap w) (next_addr w) (lock w) (faults w) (tr w).
Definition set_ctxs (m : gmap nat cb_data) (w : World) : World :=
  mkWorld (listen_sem w) (hIncoming w) m (frames w) (heap w) (next_addr w) (lock w) (faults w) (tr w).
Definition set_frames (f : gset nat) (w : World) : World :=
  mkWorld (listen_sem w) (hIncoming w) (ctxs w) f (heap w) (next_addr w) (lock w) (faults w) (tr w).
Definition set_heap (hp : gmap nat Z) (n : nat) (w : World) : World :=
  mkWorld (listen_sem w) (hIncoming w) (ctxs w) (frames w) hp n (lock w) (faults w) (tr w).
Definition set_lock (l : option nat) (w : World) : World :=
  mkWorld (listen_sem w) (hIncoming w) (ctxs w) (frames w) (heap w) (next_addr w) l (faults w) (tr w).
Definition add_fault (f : fault) (w : World) : World :=
  mkWorld (listen_sem w) (hIncoming w) (ctxs w) (frames w) (heap w) (next_addr w) (lock w) (f :: faults w) (tr w).
Definition set_tr (t : T) (w : World) : World :=
  mkWorld (listen_sem w) (hIncoming w) (ctxs w) (frames w) (heap w) (next_addr w) (lock w) (faults w) t.

(** [nfc_cb_data_init(&cb_data, NULL)] (line 64): [sem_init(&sem, 0, 0)];
    [ok] is whether [sem_init] succeeded. *)
Definition nfc_cb_data_init (ok : bool) (c : nat) (w : World) : bool * World :=
  if ok then (true, set_ctxs (<[c := mkCb None (Sem.sem_init 0)]> (ctxs w)) w)
  else (false, w).

(** [nfc_cb_data_deinit(&cb_data)] (line 136): [sem_destroy]. *)
Definition nfc_cb_data_deinit (c : nat) (w : World) : World :=
  match ctxs w !! c with
  | Some _ => set_ctxs (delete c (ctxs w)) w
  | None => add_fault (DestroyUninitialised c) w
  end.

(** [malloc(n)]: [ok] is whether the allocation succeeds. *)
Definition malloc (ok : bool) (n : Z) (w : World) : option nat * World :=
  if ok then (Some (next_addr w), set_heap (<[next_addr w := n]> (heap w)) (S (next_addr w)) w)
  else (None, w).

(** [REENTRANCE_LOCK()]: [None] when the calling thread must block. *)
Definition REENTRANCE_LOCK (tid : nat) (w : World) : option World :=
  match lock w with
  | None => Some (set_lock (Some tid) w)
  | Some _ => None
  end.

(** [REENTRANCE_UNLOCK()] *)
Definition REENTRANCE_UNLOCK (w : World) : World := set_lock None w.

(** [nfc_jni_llcp_accept_socket_callback(pContext, status)] (lines 31-40):
    store the status, then post the context's semaphore. *)
Definition nfc_jni_llcp_accept_socket_callback (c : nat) (st : NFCSTATUS) (w : World) : World :=
  match ctxs w !! c with
  | Some cb =>
      if decide (c ∈ frames w)
      then set_ctxs (<[c := mkCb (Some st) (Sem.sem_post (sem cb))]> (ctxs w)) w
      else add_fault (CallbackOnDeadContext c) w
  | None => add_fault (CallbackOnDeadContext c) w
  end.

(** [nfc_jni_llcp_transport_socket_err_callback(pContext, nErrCode)]
    (declared at lines 26-27, passed at line 83, defined in the NFC
    service's [com_android_nfc.cpp], outside this repository): it only
    logs the error code, and writes nothing through [pContext]. *)
Definition nfc_jni_llcp_transport_socket_err_callback (c : nat) (nErrCode : Z) (w : World)
    : World :=
  w.

(** The arrival of an incoming connection on the listening socket: the
    listen callback of the NFC manager stores the new handle in
    [hIncommingLlcpSocket] and posts the Listen Gate. *)
Definition llcp_listen_notify (h : phLibNfc_Handle) (w : World) : World :=
  set_listen (Sem.sem_post (listen_sem w)) (set_hIncoming h w).

(** The process state before any LLCP activity: the Listen Gate holds
    [listen] tokens, no accept is running, the mutex is free. *)
Definition initial_world (listen : nat) (h : phLibNfc_Handle) (t : T) : World :=
  mkWorld (Sem.sem_init listen) h ∅ ∅ ∅ 0 None [] t.

End World.

Arguments World : clear implicits.

Section Libnfc.
Context `{LlcpTransport T}.

(** One step of the libnfc thread: it delivers the next accept
    completion by calling the accept callback. *)
Definition transport_complete (w : World T) : option (World T) :=
  match llcp_complete (tr w) with
  | Some (c, st, t') => Some (nfc_jni_llcp_accept_socket_callback c st (set_tr t' w))
  | None => None
  end.

(** The other step of the libnfc thread: it abandons an owed accept and
    calls the error callback passed with it. *)
Definition transport_fail (w : World T) : option (World T) :=
  match llcp_fail (tr w) with
  | Some (c, code, t') => Some (nfc_jni_llcp_transport_socket_err_callback c code (set_tr t' w))
  | None => None
  end.
End Libnfc.

(** Reduce field reads of updated worlds. *)
Ltac wsimpl := cbn [listen_sem hIncoming ctxs frames heap next_addr lock faults tr
   set_listen set_hIncoming set_ctxs set_frames set_heap set_lock add_fault set_tr
   status sem Sem.value Sem.sem_trywait Sem.sem_post Sem.sem_init mbind option_bind
   REENTRANCE_LOCK REENTRANCE_UNLOCK fst snd] in *.
