(* ===== verification/Accept.v ===== *)
(** * [com_NativeLlcpServiceSocket_doAccept] (lines 46-138)

    The accept call as the thread that runs it: a program counter
    [accept_pc] at each point where the thread can block or be preempted
    (the Listen Gate wait of line 58, [REENTRANCE_LOCK] at line 79, the
    transport call of lines 80-92 under the lock, the completion wait of
    line 95) and one function per straight-line stretch of the source
    between them. [accept_step] is one step of the thread, [accept_interrupt]
    the [EINTR] return of a blocked [sem_wait]. [doAccept] runs the thread
    alone against the libnfc thread: when it blocks, a pending signal
    interrupts it or libnfc delivers its next completion. *)

From S2P Require Import Prelude Jni Semaphore Transport State.

(** Outcomes of the calls into libc and the JVM that the code tests. *)
Record jni_env := mkEnv {
  sem_init_ok : bool;   (* sem_init in nfc_cb_data_init (line 64) *)
  malloc_ok : bool;     (* malloc (line 74), not tested by the code *)
  cache_ok : bool;      (* nfc_jni_cache_object (line 107) *)
  class_exc : bool;     (* e->ExceptionCheck() after GetObjectClass (line 115) *)
  interrupted : bool;   (* a signal arrives while the thread is blocked in sem_wait *)
}.

(** The three [jint] arguments of [doAccept]. *)
Record accept_args := mkArgs { a_miu : jint; a_rw : jint; a_lbl : jint }.

Inductive accept_pc :=
| AccWaitListen                                               (* line 58 *)
| AccLock (c : nat) (o : sSocketOptions) (wb : phNfc_sData_t)  (* line 79 *)
| AccCall (c : nat) (o : sSocketOptions) (wb : phNfc_sData_t)  (* lines 80-92 *)
| AccWaitCb (c : nat) (wb : phNfc_sData_t)                     (* line 95 *)
| AccDone (r : option NativeLlcpSocket).                       (* returned *)

Section Accept.
Context `{LlcpTransport T}.

(** [clean_and_return:] (lines 135-137): destroy the context's
    semaphore, return [clientSocket]; the frame of [cb_data] is popped. *)
Definition clean_and_return (c : nat) (r : option NativeLlcpSocket) (w : World T)
    : accept_pc * World T :=
  let w1 := nfc_cb_data_deinit c w in
  (AccDone r, set_frames (frames w1 ∖ {[c]}) w1).

(** [return NULL] of line 90, which skips [clean_and_return]. *)
Definition return_early (c : nat) (w : World T) : accept_pc * World T :=
  (AccDone None, set_frames (frames w ∖ {[c]}) w).

(** Lines 63-75, once the Listen Gate was passed: the frame of
    [cb_data] (address [c]), [nfc_cb_data_init], the options and the
    working buffer. *)
Definition accept_prepare (e : jni_env) (a : accept_args) (w : World T)
    : accept_pc * World T :=
  let c := next_addr w in
  let w0 := set_heap (heap w) (S c) (set_frames ({[c]} ∪ frames w) w) in
  match nfc_cb_data_init (sem_init_ok e) c w0 with
  | (false, w1) => clean_and_return c None w1
  | (true, w1) =>
      let o := mkOptions (a_miu a) (a_rw a) in
      let len := working_buffer_length (a_miu a) (a_rw a) (a_lbl a) in
      let (p, w2) := malloc (malloc_ok e) len w1 in
      (AccLock c o (mkData p len), w2)
  end.

(** Lines 80-92, with the reentrance mutex held. *)
Definition accept_call (c : nat) (o : sSocketOptions) (wb : phNfc_sData_t) (w : World T)
    : accept_pc * World T :=
  let (ret, t') := phLibNfc_Llcp_Accept (tr w) (hIncoming w) o wb c in
  let w1 := REENTRANCE_UNLOCK (set_tr t' w) in
  if decide (ret = NFCSTATUS_PENDING) then (AccWaitCb c wb, w1)
  else return_early c w1.

(** Lines 101-137, once [sem_wait(&cb_data.sem)] returned [0]. *)
Definition accept_wake (e : jni_env) (a : accept_args) (c : nat) (w : World T)
    : accept_pc * World T :=
  if decide ((ctxs w !! c) ≫= status = Some NFCSTATUS_SUCCESS) then
    if cache_ok e then
      if class_exc e then clean_and_return c (Some new_NativeLlcpSocket) w
      else clean_and_return c
             (Some (mkSocket (handle_to_jint (hIncoming w)) (a_miu a) (a_rw a))) w
    else clean_and_return c None w
  else clean_and_return c None w.

(** One step of the thread running [doAccept]; [None] when it blocks. *)
Definition accept_step (e : jni_env) (tid : nat) (a : accept_args) (pc : accept_pc)
    (w : World T) : option (accept_pc * World T) :=
  match pc with
  | AccWaitListen =>
      l' ← Sem.sem_trywait (listen_sem w);
      Some (accept_prepare e a (set_listen l' w))
  | AccLock c o wb =>
      w' ← REENTRANCE_LOCK tid w;
      Some (AccCall c o wb, w')
  | AccCall c o wb => Some (accept_call c o wb w)
  | AccWaitCb c wb =>
      cb ← ctxs w !! c;
      s' ← Sem.sem_trywait (sem cb);
      Some (accept_wake e a c (set_ctxs (<[c := mkCb (status cb) s']> (ctxs w)) w))
  | AccDone _ => None
  end.

(** [sem_wait] returning [-1] ([EINTR]) at line 58 or line 95. *)
Definition accept_interrupt (pc : accept_pc) (w : World T) : option (accept_pc * World T) :=
  match pc with
  | AccWaitListen => Some (AccDone None, w)
  | AccWaitCb c _ => Some (clean_and_return c None w)
  | _ => None
  end.

(** The thread alone against libnfc. *)
Fixpoint run_accept (fuel : nat) (e : jni_env) (a : accept_args) (pc : accept_pc)
    (w : World T) : option (option NativeLlcpSocket * World T) :=
  match pc with
  | AccDone r => Some (r, w)
  | _ =>
    match fuel with
    | O => None
    | S f =>
      match accept_step e 0 a pc w with
      | Some (pc', w') => run_accept f e a pc' w'
      | None =>
          if interrupted e then
            '(pc', w') ← accept_interrupt pc w; run_accept f e a pc' w'
          else
            w' ← transport_complete w; run_accept f e a pc w'
      end
    end
  end.

(** Four steps of the thread, one completion per owed callback and the
    one of this call. *)
Definition accept_fuel (w : World T) : nat := 6 + List.length (llcp_owed (tr w)).

Definition doAccept (e : jni_env) (a : accept_args) (w : World T)
    : option (option NativeLlcpSocket * World T) :=
  run_accept (accept_fuel w) e a AccWaitListen w.

End Accept.
