(* ===== verification/AcceptFacts.v ===== *)
(** * What [doAccept] does: its contract and the theorems of its paths

    [AcceptSpec] states the contract of the spec's section 4.2 as a
    function of what the collaborators do (the gate, [sem_init], [malloc],
    the immediate status of the transport, an interruption, the
    completion status, the creation of the Java object). The theorems
    prove that the thread model of [Accept.v] implements it for every
    lawful transport, and say exactly where it does not: the partial
    object of line 118, the unchecked [malloc] of line 74, and the
    resources each exit path leaves behind. *)

From S2P Require Import Prelude Jni Semaphore Transport State Accept.

Module AcceptSpec.

(** The error taxonomy of the spec's section 7. *)
Inductive accept_failure :=
| NoIncomingConnection
| InitError
| AllocationError
| AcceptRejected (code : NFCSTATUS)
| InterruptedWait
| AcceptFailed (code : NFCSTATUS)
| ObjectError.

(** The contract of [accept] once the Listen Gate is passed: [imm] is
    the immediate status of [tryAccept], [st] the status its completion
    reports, [h] the pending connection's handle. *)
Definition accept_contract (e : jni_env) (imm st : NFCSTATUS) (h : phLibNfc_Handle)
    (a : accept_args) : accept_failure + NativeLlcpSocket :=
  if negb (sem_init_ok e) then inl InitError
  else if negb (malloc_ok e) then inl AllocationError
  else if decide (imm <> NFCSTATUS_PENDING) then inl (AcceptRejected imm)
  else if interrupted e then inl InterruptedWait
  else if decide (st <> NFCSTATUS_SUCCESS) then inl (AcceptFailed st)
  else if negb (cache_ok e) || class_exc e then inl ObjectError
  else inr (mkSocket (handle_to_jint h) (a_miu a) (a_rw a)).

(** The value the Java caller sees: an object, or [null] for any failure. *)
Definition to_jobject (r : accept_failure + NativeLlcpSocket) : option NativeLlcpSocket :=
  match r with
  | inl _ => None
  | inr s => Some s
  end.

(** The resource-leak property of the spec (section 8): once [accept]
    returned, the completion context at [c] is destroyed with its frame
    popped, and the working buffer at [b] is freed. *)
Definition context_released {T} (c : nat) (w : World T) : Prop :=
  (c ∉ dom (ctxs w)) /\ (c ∉ frames w).

Definition buffer_released {T} (b : nat) (w : World T) : Prop := b ∉ dom (heap w).

End AcceptSpec.

Section AcceptFacts.
Context `{LlcpTransportLaws T}.
Import AcceptSpec.

(** The status the next completion of the transport reports. *)
Definition completion_status (t : T) : NFCSTATUS :=
  match llcp_complete t with
  | Some (_, st, _) => st
  | None => NFCSTATUS_FAILED
  end.

(** ** The transport side, from the laws *)

Lemma pending_sole_completion t h o b c t1 :
  llcp_owed t = [] ->
  phLibNfc_Llcp_Accept t h o b c = (NFCSTATUS_PENDING, t1) ->
  exists st t2, llcp_complete t1 = Some (c, st, t2) /\ llcp_owed t2 = [].
Proof.
  intros Hnil Hacc.
  pose proof (accept_pending_owes _ _ _ _ _ _ Hacc) as Hperm.
  rewrite Hnil in Hperm.
  destruct (complete_progress t1) as [[[c' st] t2] Hc].
  { intros Hn. rewrite Hn in Hperm. by apply Permutation_nil_cons in Hperm. }
  pose proof (complete_pays _ _ _ _ Hc) as Hperm'.
  rewrite Hperm in Hperm'.
  apply Permutation_length_1_inv in Hperm'. simplify_eq. eauto.
Qed.

(** ** Unfolding the solo run *)

Lemma run_accept_step f e a pc w p :
  accept_step e 0 a pc w = Some p ->
  run_accept (S f) e a pc w = run_accept f e a p.1 p.2.
Proof.
  intros Hs. destruct p. destruct pc; [..|done]; cbn [run_accept]; by rewrite Hs.
Qed.

Lemma run_accept_complete f e a pc w w' :
  (forall r, pc <> AccDone r) ->
  accept_step e 0 a pc w = None -> interrupted e = false ->
  transport_complete w = Some w' ->
  run_accept (S f) e a pc w = run_accept f e a pc w'.
Proof.
  intros Hpc Hs Hi Hc. destruct pc; [..|by edestruct Hpc]; cbn [run_accept];
    by rewrite Hs, Hi, Hc.
Qed.

Lemma run_accept_interrupt f e a pc w pc' w' :
  accept_step e 0 a pc w = None -> interrupted e = true ->
  accept_interrupt pc w = Some (pc', w') ->
  run_accept (S f) e a pc w = run_accept f e a pc' w'.
Proof.
  intros Hs Hi Hc. destruct pc; [..|done]; cbn [run_accept];
    by rewrite Hs, Hi, Hc.
Qed.

Lemma run_accept_done f e a r (w : World T) : run_accept f e a (AccDone r) w = Some (r, w).
Proof. by destruct f. Qed.

(** ** Each stretch of the code, on its branches *)

Lemma accept_step_listen e tid a w n :
  Sem.value (listen_sem w) = S n ->
  accept_step e tid a AccWaitListen w =
    Some (accept_prepare e a (set_listen (Sem.mkSem n) w)).
Proof. intros Hl. cbn [accept_step]. destruct (listen_sem w); simpl in *; by subst. Qed.

Lemma accept_step_lock e tid a c o wb w :
  lock w = None ->
  accept_step e tid a (AccLock c o wb) w = Some (AccCall c o wb, set_lock (Some tid) w).
Proof. intros Hl. cbn [accept_step]. unfold REENTRANCE_LOCK. by rewrite Hl. Qed.

Lemma accept_step_wake e tid a c wb w cb k :
  ctxs w !! c = Some cb -> Sem.value (sem cb) = S k ->
  accept_step e tid a (AccWaitCb c wb) w =
    Some (accept_wake e a c (set_ctxs (<[c := mkCb (status cb) (Sem.mkSem k)]> (ctxs w)) w)).
Proof.
  intros Hc Hk. cbn [accept_step]. rewrite Hc. cbn [mbind option_bind].
  destruct cb as [? [?]]; simpl in *; by subst.
Qed.

Lemma accept_step_blocked e tid a c wb w cb :
  ctxs w !! c = Some cb -> Sem.value (sem cb) = 0 ->
  accept_step e tid a (AccWaitCb c wb) w = None.
Proof.
  intros Hc Hk. cbn [accept_step]. rewrite Hc. cbn [mbind option_bind].
  destruct cb as [? [?]]; simpl in *; by subst.
Qed.

Lemma accept_prepare_init_ok e a (w : World T) :
  sem_init_ok e = true ->
  let c := next_addr w in
  let len := working_buffer_length (a_miu a) (a_rw a) (a_lbl a) in
  let w1 := set_ctxs (<[c := mkCb None (Sem.sem_init 0)]> (ctxs w))
              (set_heap (heap w) (S c) (set_frames ({[c]} ∪ frames w) w)) in
  accept_prepare e a w =
    (AccLock c (mkOptions (a_miu a) (a_rw a))
       (mkData (if malloc_ok e then Some (S c) else None) len),
     if malloc_ok e then set_heap (<[S c := len]> (heap w1)) (S (S c)) w1 else w1).
Proof.
  intros Hi. unfold accept_prepare, nfc_cb_data_init, malloc. rewrite Hi.
  by destruct (malloc_ok e).
Qed.

Lemma accept_prepare_init_fails e a (w : World T) :
  sem_init_ok e = false ->
  accept_prepare e a w =
    clean_and_return (next_addr w) None
      (set_heap (heap w) (S (next_addr w)) (set_frames ({[next_addr w]} ∪ frames w) w)).
Proof. intros Hi. unfold accept_prepare, nfc_cb_data_init. by rewrite Hi. Qed.

(** The callback on a live context records the status and posts the
    semaphore once. *)
Lemma accept_callback_live c st (w : World T) cb :
  ctxs w !! c = Some cb -> c ∈ frames w ->
  nfc_jni_llcp_accept_socket_callback c st w =
    set_ctxs (<[c := mkCb (Some st) (Sem.sem_post (sem cb))]> (ctxs w)) w.
Proof.
  intros Hc Hf. unfold nfc_jni_llcp_accept_socket_callback. rewrite Hc.
  by rewrite decide_True.
Qed.

(** From the completion wait of line 95, when the next completion libnfc
    delivers is this call's: the value returned, on every branch. *)
Lemma run_accept_wait f e a c wb (w : World T) st t2 :
  ctxs w !! c = Some (mkCb None (Sem.sem_init 0)) -> c ∈ frames w ->
  llcp_complete (tr w) = Some (c, st, t2) ->
  exists w', run_accept (S (S f)) e a (AccWaitCb c wb) w =
    Some (if interrupted e then None
          else if decide (st = NFCSTATUS_SUCCESS) then
            if cache_ok e then
              if class_exc e then Some new_NativeLlcpSocket
              else Some (mkSocket (handle_to_jint (hIncoming w)) (a_miu a) (a_rw a))
            else None
          else None, w').
Proof.
  intros Hc Hf Hcomp.
  destruct (interrupted e) eqn:Hi.
  { erewrite run_accept_interrupt; [| by eapply accept_step_blocked | done | done].
    rewrite run_accept_done. eauto. }
  erewrite run_accept_complete;
    [| by intros ? | by eapply accept_step_blocked | done
     | by unfold transport_complete; rewrite Hcomp].
  rewrite (accept_callback_live _ _ _ (mkCb None (Sem.sem_init 0))) by (wsimpl; done).
  erewrite run_accept_step
    by (eapply accept_step_wake; wsimpl; [by rewrite lookup_insert_eq | done]).
  cbn [fst snd]. unfold accept_wake. wsimpl. rewrite !lookup_insert_eq. wsimpl.
  case_decide as Hst; [rewrite decide_True by congruence | rewrite decide_False by congruence];
    [destruct (cache_ok e), (class_exc e)|]; unfold clean_and_return; cbn [fst snd];
    rewrite run_accept_done; eauto.
Qed.

(** ** The value returned on every branch *)

(** The value [doAccept] returns on each branch of the code, once the
    gate is signalled, the mutex free and nothing owed. *)
Lemma doAccept_value e a w imm t1 :
  Sem.value (listen_sem w) <> 0 -> lock w = None -> llcp_owed (tr w) = [] ->
  phLibNfc_Llcp_Accept (tr w) (hIncoming w) (mkOptions (a_miu a) (a_rw a))
    (mkData (if malloc_ok e then Some (S (next_addr w)) else None)
       (working_buffer_length (a_miu a) (a_rw a) (a_lbl a)))
    (next_addr w) = (imm, t1) ->
  exists w', doAccept e a w =
    Some (if negb (sem_init_ok e) then None
          else if decide (imm = NFCSTATUS_PENDING) then
            if interrupted e then None
            else if decide (completion_status t1 = NFCSTATUS_SUCCESS) then
              if cache_ok e then
                if class_exc e then Some new_NativeLlcpSocket
                else Some (mkSocket (handle_to_jint (hIncoming w)) (a_miu a) (a_rw a))
              else None
            else None
          else None, w').
Proof.
  intros Hl Hlock Hnil Hacc.
  destruct (Sem.value (listen_sem w)) as [|n] eqn:Hls; [done|].
  unfold doAccept, accept_fuel. rewrite Hnil. cbn [List.length Nat.add].
  erewrite run_accept_step by (by apply accept_step_listen). cbn [fst snd].
  destruct (sem_init_ok e) eqn:Hi; cbn [negb].
  2:{ rewrite accept_prepare_init_fails by done. unfold clean_and_return. cbn [fst snd].
      rewrite run_accept_done. eauto. }
  rewrite accept_prepare_init_ok by done. cbn zeta.
  erewrite run_accept_step
    by (apply accept_step_lock; destruct (malloc_ok e); wsimpl; done).
  cbn [fst snd]. erewrite run_accept_step by done. cbn [fst snd].
  unfold accept_call.
  replace (phLibNfc_Llcp_Accept _ _ _ _ _) with (imm, t1)
    by (rewrite <- Hacc; destruct (malloc_ok e); wsimpl; done).
  case_decide as Hp; cbn [fst snd].
  2:{ unfold return_early. cbn [fst snd]. rewrite run_accept_done. eauto. }
  subst imm.
  destruct (pending_sole_completion _ _ _ _ _ _ Hnil Hacc) as (st & t2 & Hcomp & _).
  unfold completion_status. rewrite Hcomp.
  edestruct (run_accept_wait 1 e a) as [w' ->];
    [destruct (malloc_ok e); wsimpl; by rewrite ?lookup_insert_eq
    | destruct (malloc_ok e); wsimpl; set_solver
    | wsimpl; exact Hcomp |].
  replace (hIncoming _) with (hIncoming w) by (destruct (malloc_ok e); done).
  eauto.
Qed.

(** C2. Once the Listen Gate is signalled, the mutex free and no other
    accept outstanding, [doAccept] returns, and its value follows the code
    branch by branch: [null] when [sem_init] fails, when the transport
    does not answer [NFCSTATUS_PENDING], when the wait is interrupted, when
    the completion status is not [NFCSTATUS_SUCCESS] or when the object
    cannot be created; a fresh default object when the class lookup raises
    an exception; otherwise the object with the pending handle and the
    caller's [miu] and [rw]. The working buffer passed to the transport is
    [NULL] when [malloc] fails: nothing tests it. *)
Theorem doAccept_branches e a w imm t1 :
  Sem.value (listen_sem w) <> 0 -> lock w = None -> llcp_owed (tr w) = [] ->
  phLibNfc_Llcp_Accept (tr w) (hIncoming w) (mkOptions (a_miu a) (a_rw a))
    (mkData (if malloc_ok e then Some (S (next_addr w)) else None)
       (working_buffer_length (a_miu a) (a_rw a) (a_lbl a)))
    (next_addr w) = (imm, t1) ->
  exists w', doAccept e a w =
    Some (if negb (sem_init_ok e) then None
          else if decide (imm = NFCSTATUS_PENDING) then
            if interrupted e then None
            else if decide (completion_status t1 = NFCSTATUS_SUCCESS) then
              if cache_ok e then
                if class_exc e then Some new_NativeLlcpSocket
                else Some (mkSocket (handle_to_jint (hIncoming w)) (a_miu a) (a_rw a))
              else None
            else None
          else None, w').
Proof. apply doAccept_value. Qed.

(** ** The contract *)

(** C1. Once the Listen Gate is signalled and no other accept is
    outstanding, [doAccept] implements the spec's accept contract: it
    returns an object exactly when the contract yields a connection, that
    object is the contract's, and it returns [null] for every failure of
    the taxonomy, for the statuses the transport gives (the immediate
    status of [phLibNfc_Llcp_Accept] on the request the code builds and
    the status of the completion it then delivers) and every outcome of
    [sem_init], of the object creation and of an interruption. The two
    hypotheses on [malloc] and on the class lookup exclude the two paths
    where the code departs from the contract (C3, C4). *)
Theorem doAccept_refines e a w imm t1 :
  Sem.value (listen_sem w) <> 0 -> lock w = None -> llcp_owed (tr w) = [] ->
  malloc_ok e = true -> class_exc e = false ->
  phLibNfc_Llcp_Accept (tr w) (hIncoming w) (mkOptions (a_miu a) (a_rw a))
    (mkData (Some (S (next_addr w))) (working_buffer_length (a_miu a) (a_rw a) (a_lbl a)))
    (next_addr w) = (imm, t1) ->
  exists w', doAccept e a w =
    Some (to_jobject (accept_contract e imm (completion_status t1) (hIncoming w) a), w').
Proof.
  intros Hl Hlock Hnil Hm Hx Hacc.
  destruct (doAccept_value e a w imm t1) as [w' ->]; [done | done | done | by rewrite Hm |].
  exists w'. do 2 f_equal. unfold accept_contract. rewrite Hm, Hx.
  destruct (sem_init_ok e), (interrupted e), (cache_ok e); cbn [negb orb];
    repeat case_decide; try tauto; done.
Qed.

(** C3. Departure from the contract (spec, sections 4.2 step 3 and 7):
    when [malloc] fails, [doAccept] still hands the transport a [NULL]
    working buffer of the computed length, and if the transport accepts
    and completes, it returns a connection object where the contract
    prescribes [AllocationError]. *)
Theorem doAccept_malloc_unchecked e a w t1 :
  Sem.value (listen_sem w) <> 0 -> lock w = None -> llcp_owed (tr w) = [] ->
  sem_init_ok e = true -> malloc_ok e = false -> interrupted e = false ->
  cache_ok e = true -> class_exc e = false ->
  phLibNfc_Llcp_Accept (tr w) (hIncoming w) (mkOptions (a_miu a) (a_rw a))
    (mkData None (working_buffer_length (a_miu a) (a_rw a) (a_lbl a)))
    (next_addr w) = (NFCSTATUS_PENDING, t1) ->
  completion_status t1 = NFCSTATUS_SUCCESS ->
  accept_contract e NFCSTATUS_PENDING (completion_status t1) (hIncoming w) a = inl AllocationError /\
  exists w', doAccept e a w =
    Some (Some (mkSocket (handle_to_jint (hIncoming w)) (a_miu a) (a_rw a)), w').
Proof.
  intros Hl Hlock Hnil Hi Hm Hint Hc Hx Hacc Hst.
  split; [unfold accept_contract; by rewrite Hi, Hm|].
  destruct (doAccept_value e a w NFCSTATUS_PENDING t1) as [w' ->];
    [done | done | done | by rewrite Hm |].
  rewrite Hi, Hint, Hc, Hx, Hst. cbn [negb]. rewrite !decide_True by done. eauto.
Qed.

(** C4. Departure from the contract (spec, section 7: "no partial/garbage
    connection object is ever returned"): when [GetObjectClass] raises an
    exception (line 115), [doAccept] jumps to [clean_and_return] with
    [clientSocket] already set, and returns the fresh object whose fields
    were never written, where the contract prescribes a failure. *)
Theorem doAccept_partial_object e a w t1 :
  Sem.value (listen_sem w) <> 0 -> lock w = None -> llcp_owed (tr w) = [] ->
  sem_init_ok e = true -> malloc_ok e = true -> interrupted e = false ->
  cache_ok e = true -> class_exc e = true ->
  phLibNfc_Llcp_Accept (tr w) (hIncoming w) (mkOptions (a_miu a) (a_rw a))
    (mkData (Some (S (next_addr w))) (working_buffer_length (a_miu a) (a_rw a) (a_lbl a)))
    (next_addr w) = (NFCSTATUS_PENDING, t1) ->
  completion_status t1 = NFCSTATUS_SUCCESS ->
  accept_contract e NFCSTATUS_PENDING (completion_status t1) (hIncoming w) a = inl ObjectError /\
  exists w', doAccept e a w = Some (Some new_NativeLlcpSocket, w').
Proof.
  intros Hl Hlock Hnil Hi Hm Hint Hc Hx Hacc Hst.
  split; [unfold accept_contract; rewrite Hi, Hm, Hint, Hc, Hx, Hst; cbn [negb orb];
          repeat case_decide; tauto || done|].
  destruct (doAccept_value e a w NFCSTATUS_PENDING t1) as [w' ->];
    [done | done | done | by rewrite Hm |].
  rewrite Hi, Hint, Hc, Hx, Hst. cbn [negb]. rewrite !decide_True by done. eauto.
Qed.

(** ** What each exit path leaves behind *)

(** C5. Departure from the spec (section 4.2 step 4: "release the
    Completion Context and buffer"): when [phLibNfc_Llcp_Accept] answers
    anything but [NFCSTATUS_PENDING], [doAccept] returns [null] through
    the [return NULL] of line 90, which skips [clean_and_return]: the
    context's semaphore is never destroyed and the working buffer never
    freed, although the frame is gone; the transport owes no callback
    for the call. *)
Theorem doAccept_rejected_leaks e a w imm t1 :
  Sem.value (listen_sem w) <> 0 -> lock w = None ->
  sem_init_ok e = true -> malloc_ok e = true ->
  phLibNfc_Llcp_Accept (tr w) (hIncoming w) (mkOptions (a_miu a) (a_rw a))
    (mkData (Some (S (next_addr w))) (working_buffer_length (a_miu a) (a_rw a) (a_lbl a)))
    (next_addr w) = (imm, t1) ->
  imm <> NFCSTATUS_PENDING ->
  exists w', doAccept e a w = Some (None, w') /\
    ~ context_released (next_addr w) w' /\ ~ buffer_released (S (next_addr w)) w' /\
    ctxs w' !! next_addr w = Some (mkCb None (Sem.sem_init 0)) /\
    heap w' !! S (next_addr w) = Some (working_buffer_length (a_miu a) (a_rw a) (a_lbl a)) /\
    (next_addr w ∉ frames w') /\
    llcp_owed (tr w') = llcp_owed (tr w).
Proof.
  intros Hl Hlock Hi Hm Hacc Hp.
  destruct (Sem.value (listen_sem w)) as [|n] eqn:Hls; [done|].
  unfold doAccept, accept_fuel. cbn [Nat.add].
  erewrite run_accept_step by (by apply accept_step_listen). cbn [fst snd].
  rewrite accept_prepare_init_ok, Hm by done. cbn zeta.
  erewrite run_accept_step by (apply accept_step_lock; wsimpl; done). cbn [fst snd].
  erewrite run_accept_step by done. cbn [fst snd].
  unfold accept_call. wsimpl. rewrite Hacc, decide_False by done.
  unfold return_early. cbn [fst snd]. rewrite run_accept_done.
  eexists. split; [done|]. wsimpl.
  unfold context_released, buffer_released. wsimpl. rewrite !elem_of_dom, !lookup_insert_eq.
  split_and!; [intros [Hd _]; by apply Hd | intros Hd; by apply Hd | done | done | set_solver |].
  by apply (accept_other_owes_nothing _ _ _ _ _ _ _ Hacc).
Qed.

(** ** No exit path frees memory *)

Lemma run_accept_unfold f e a pc (w : World T) :
  (forall r, pc <> AccDone r) ->
  run_accept (S f) e a pc w =
    match accept_step e 0 a pc w with
    | Some (pc', w') => run_accept f e a pc' w'
    | None =>
        if interrupted e then
          '(pc', w') ← accept_interrupt pc w; run_accept f e a pc' w'
        else
          w' ← transport_complete w; run_accept f e a pc w'
    end.
Proof. intros Hpc. destruct pc; [..|by edestruct Hpc]; done. Qed.

Lemma heap_deinit c (w : World T) : heap (nfc_cb_data_deinit c w) = heap w.
Proof. unfold nfc_cb_data_deinit. by destruct (ctxs w !! c). Qed.

Lemma heap_clean_and_return c r (w : World T) : heap (clean_and_return c r w).2 = heap w.
Proof. unfold clean_and_return. wsimpl. apply heap_deinit. Qed.

Lemma heap_transport_complete (w w' : World T) :
  transport_complete w = Some w' -> heap w' = heap w.
Proof.
  unfold transport_complete, nfc_jni_llcp_accept_socket_callback.
  destruct (llcp_complete (tr w)) as [[[c st] t']|]; intros; simplify_eq.
  wsimpl. destruct (ctxs w !! c); [case_decide|]; done.
Qed.

Lemma accept_step_heap e tid a pc (w : World T) p :
  accept_step e tid a pc w = Some p -> dom (heap w) ⊆ dom (heap p.2).
Proof.
  destruct pc as [| c o wb | c o wb | c wb | r]; cbn [accept_step].
  - destruct (Sem.sem_trywait _); cbn [mbind option_bind]; intros; simplify_eq.
    unfold accept_prepare, nfc_cb_data_init, malloc.
    destruct (sem_init_ok e), (malloc_ok e); cbn [fst snd];
      rewrite ?heap_clean_and_return; wsimpl; rewrite ?dom_insert_L; set_solver.
  - unfold REENTRANCE_LOCK. destruct (lock w); cbn [mbind option_bind];
      intros; simplify_eq; done.
  - intros; simplify_eq. unfold accept_call.
    destruct (phLibNfc_Llcp_Accept _ _ _ _ _). case_decide; done.
  - destruct (ctxs w !! c); cbn [mbind option_bind]; [|done].
    destruct (Sem.sem_trywait _); cbn [mbind option_bind]; intros; simplify_eq.
    unfold accept_wake. repeat case_match; rewrite heap_clean_and_return; done.
  - done.
Qed.

Lemma accept_interrupt_heap pc (w : World T) pc' w' :
  accept_interrupt pc w = Some (pc', w') -> heap w' = heap w.
Proof.
  destruct pc; cbn [accept_interrupt]; unfold clean_and_return;
    intros; simplify_eq; wsimpl; [done|]. apply heap_deinit.
Qed.

Lemma run_accept_heap f e a pc (w : World T) r w' :
  run_accept f e a pc w = Some (r, w') -> dom (heap w) ⊆ dom (heap w').
Proof.
  revert pc w. induction f as [|f IH]; intros pc w Hrun.
  { destruct pc; simpl in Hrun; simplify_eq; done. }
  assert (Hpc : (exists r', pc = AccDone r') \/ forall r', pc <> AccDone r')
    by (destruct pc; [right; discriminate..| by left; eexists]).
  destruct Hpc as [[r' ->]|Hpc].
  { rewrite run_accept_done in Hrun. by simplify_eq. }
  rewrite run_accept_unfold in Hrun by done.
  destruct (accept_step e 0 a pc w) as [[pc1 w1]|] eqn:Hs.
  { etrans; [apply (accept_step_heap _ _ _ _ _ _ Hs) | exact (IH _ _ Hrun)]. }
  destruct (interrupted e).
  - destruct (accept_interrupt pc w) as [[pc1 w1]|] eqn:Hi; cbn [mbind option_bind] in Hrun;
      [|done].
    rewrite <- (accept_interrupt_heap _ _ _ _ Hi). exact (IH _ _ Hrun).
  - destruct (transport_complete w) as [w1|] eqn:Hc; cbn [mbind option_bind] in Hrun; [|done].
    rewrite <- (heap_transport_complete _ _ Hc). exact (IH _ _ Hrun).
Qed.

Lemma run_listen_keeps_buffer f e a (w : World T) r w' :
  Sem.value (listen_sem w) <> 0 -> sem_init_ok e = true -> malloc_ok e = true ->
  run_accept (S f) e a AccWaitListen w = Some (r, w') ->
  ~ buffer_released (S (next_addr w)) w' /\ dom (heap w) ⊆ dom (heap w').
Proof.
  intros Hl Hi Hm Hrun.
  destruct (Sem.value (listen_sem w)) as [|n] eqn:Hls; [done|].
  erewrite run_accept_step in Hrun by (by apply accept_step_listen).
  rewrite accept_prepare_init_ok, Hm in Hrun by done.
  apply run_accept_heap in Hrun. wsimpl. rewrite dom_insert_L in Hrun.
  unfold buffer_released. set_solver.
Qed.

(** C6. [doAccept] never frees a heap block, and the working buffer it
    allocates stays allocated whatever the exit path: on success the
    transport keeps it for the connection, but on every failure exit
    (rejected accept, interrupted wait, failed completion, failed object
    creation) it is leaked, against the spec's section 7 ("resource
    cleanup ... must occur on every exit path"). *)
Theorem doAccept_keeps_buffer e a w r w' :
  Sem.value (listen_sem w) <> 0 -> sem_init_ok e = true -> malloc_ok e = true ->
  doAccept e a w = Some (r, w') ->
  ~ buffer_released (S (next_addr w)) w' /\ dom (heap w) ⊆ dom (heap w').
Proof. apply run_listen_keeps_buffer. Qed.

(** ** After a pending accept *)

Lemma clean_and_return_gone c r (w : World T) :
  (c ∉ dom (ctxs (clean_and_return c r w).2)) /\ (c ∉ frames (clean_and_return c r w).2).
Proof.
  unfold clean_and_return, nfc_cb_data_deinit. cbn [fst snd].
  destruct (ctxs w !! c) eqn:Hc; wsimpl; (split; [|set_solver]).
  - rewrite dom_delete_L. set_solver.
  - by apply not_elem_of_dom.
Qed.

Lemma accept_wake_clean e a c (w : World T) :
  exists r, accept_wake e a c w = clean_and_return c r w.
Proof. unfold accept_wake. repeat case_match; eauto. Qed.

(** From the completion wait, every way out destroys the context and pops
    the frame. *)
Lemma run_wait_cleans f e a c wb (w : World T) r w' :
  run_accept f e a (AccWaitCb c wb) w = Some (r, w') ->
  (c ∉ dom (ctxs w')) /\ (c ∉ frames w').
Proof.
  revert w. induction f as [|f IH]; intros w Hrun; [done|].
  rewrite run_accept_unfold in Hrun by done.
  destruct (accept_step e 0 a (AccWaitCb c wb) w) as [[pc1 w1]|] eqn:Hs.
  - cbn [accept_step] in Hs.
    destruct (ctxs w !! c) as [cb|]; cbn [mbind option_bind] in Hs; [|done].
    destruct (Sem.sem_trywait (sem cb)); cbn [mbind option_bind] in Hs; [|done].
    injection Hs as Hs. edestruct accept_wake_clean as [r' Hr]. rewrite Hr in Hs.
    match type of Hs with clean_and_return _ _ ?x = _ =>
      pose proof (clean_and_return_gone c r' x) as G end.
    rewrite Hs in G. cbn [snd] in G.
    assert (pc1 = AccDone r') as -> by (unfold clean_and_return in Hs; congruence).
    rewrite run_accept_done in Hrun. by simplify_eq.
  - destruct (interrupted e); cbn [accept_interrupt mbind option_bind] in Hrun.
    + unfold clean_and_return in Hrun. cbn [fst snd] in Hrun.
      rewrite run_accept_done in Hrun. simplify_eq. apply (clean_and_return_gone c None).
    + destruct (transport_complete w); cbn [mbind option_bind] in Hrun; [|done]. eauto.
Qed.

(** The common prefix of every path past the initialisation: gate,
    [nfc_cb_data_init], allocation, lock; the thread is about to call
    the transport with its context initialised and its frame live. *)
Lemma run_to_call f e a w :
  Sem.value (listen_sem w) <> 0 -> lock w = None -> sem_init_ok e = true ->
  exists w2,
    run_accept (S (S f)) e a AccWaitListen w = run_accept f e a
      (AccCall (next_addr w) (mkOptions (a_miu a) (a_rw a))
         (mkData (if malloc_ok e then Some (S (next_addr w)) else None)
            (working_buffer_length (a_miu a) (a_rw a) (a_lbl a)))) w2 /\
    tr w2 = tr w /\ ctxs w2 !! next_addr w = Some (mkCb None (Sem.sem_init 0)) /\
    (next_addr w ∈ frames w2) /\ hIncoming w2 = hIncoming w.
Proof.
  intros Hl Hlock Hi.
  destruct (Sem.value (listen_sem w)) as [|n] eqn:Hls; [done|].
  erewrite run_accept_step by (by apply accept_step_listen). cbn [fst snd].
  rewrite accept_prepare_init_ok by done. cbn zeta.
  erewrite run_accept_step
    by (apply accept_step_lock; destruct (malloc_ok e); wsimpl; done).
  cbn [fst snd]. eexists. split; [reflexivity|].
  destruct (malloc_ok e); wsimpl; rewrite ?lookup_insert_eq; split_and!; done || set_solver.
Qed.

Lemma doAccept_to_call e a w :
  Sem.value (listen_sem w) <> 0 -> lock w = None -> sem_init_ok e = true ->
  exists w2,
    doAccept e a w = run_accept (4 + List.length (llcp_owed (tr w))) e a
      (AccCall (next_addr w) (mkOptions (a_miu a) (a_rw a))
         (mkData (if malloc_ok e then Some (S (next_addr w)) else None)
            (working_buffer_length (a_miu a) (a_rw a) (a_lbl a)))) w2 /\
    tr w2 = tr w /\ ctxs w2 !! next_addr w = Some (mkCb None (Sem.sem_init 0)) /\
    (next_addr w ∈ frames w2) /\ hIncoming w2 = hIncoming w.
Proof. unfold doAccept, accept_fuel. apply run_to_call. Qed.

(** The common prefix of the pending paths: the thread then waits at
    line 95 with its context initialised, its frame live and the mutex
    released. *)
Lemma doAccept_to_wait e a w t1 :
  Sem.value (listen_sem w) <> 0 -> lock w = None -> sem_init_ok e = true ->
  phLibNfc_Llcp_Accept (tr w) (hIncoming w) (mkOptions (a_miu a) (a_rw a))
    (mkData (if malloc_ok e then Some (S (next_addr w)) else None)
       (working_buffer_length (a_miu a) (a_rw a) (a_lbl a)))
    (next_addr w) = (NFCSTATUS_PENDING, t1) ->
  exists wb w3,
    doAccept e a w = run_accept (3 + List.length (llcp_owed (tr w))) e a
                       (AccWaitCb (next_addr w) wb) w3 /\
    tr w3 = t1 /\ ctxs w3 !! next_addr w = Some (mkCb None (Sem.sem_init 0)) /\
    (next_addr w ∈ frames w3) /\ hIncoming w3 = hIncoming w /\ lock w3 = None.
Proof.
  intros Hl Hlock Hi Hacc.
  destruct (doAccept_to_call e a w) as (w2 & -> & Ht & Hc & Hf & Hh); [done..|].
  cbn [Nat.add]. erewrite run_accept_step by done. cbn [fst snd].
  unfold accept_call. rewrite Ht, Hh, Hacc, decide_True by done.
  do 2 eexists. split; [reflexivity|]. by wsimpl.
Qed.

(** C7. Once the transport has answered [NFCSTATUS_PENDING], every exit
    of [doAccept] (interrupted wait, failed completion, failed object
    creation, success) goes through [clean_and_return]: the context's
    semaphore is destroyed and its frame popped, whatever other
    completions libnfc delivers meanwhile. *)
Theorem doAccept_pending_cleans e a w t1 r w' :
  Sem.value (listen_sem w) <> 0 -> lock w = None -> sem_init_ok e = true ->
  phLibNfc_Llcp_Accept (tr w) (hIncoming w) (mkOptions (a_miu a) (a_rw a))
    (mkData (if malloc_ok e then Some (S (next_addr w)) else None)
       (working_buffer_length (a_miu a) (a_rw a) (a_lbl a)))
    (next_addr w) = (NFCSTATUS_PENDING, t1) ->
  doAccept e a w = Some (r, w') ->
  context_released (next_addr w) w'.
Proof.
  intros Hl Hlock Hi Hacc Hrun.
  destruct (doAccept_to_wait e a w t1) as (wb & w3 & Hw & _); [done..|].
  rewrite Hw in Hrun. by eapply run_wait_cleans.
Qed.

(** C8. The interrupted wait (spec, section 5, "Cancellation"): when a
    signal interrupts the wait of line 95 after the transport answered
    [NFCSTATUS_PENDING], [doAccept] returns [null] with the context
    destroyed and its frame popped while libnfc still owes the call's
    completion; when libnfc delivers it, the callback of lines 31-40
    writes a context that no longer exists. *)
Theorem doAccept_interrupt_dangling e a w t1 :
  Sem.value (listen_sem w) <> 0 -> lock w = None -> llcp_owed (tr w) = [] ->
  sem_init_ok e = true -> interrupted e = true ->
  phLibNfc_Llcp_Accept (tr w) (hIncoming w) (mkOptions (a_miu a) (a_rw a))
    (mkData (if malloc_ok e then Some (S (next_addr w)) else None)
       (working_buffer_length (a_miu a) (a_rw a) (a_lbl a)))
    (next_addr w) = (NFCSTATUS_PENDING, t1) ->
  exists w', doAccept e a w = Some (None, w') /\
    context_released (next_addr w) w' /\
    llcp_owed (tr w') = llcp_owed t1 /\ llcp_owed t1 ≡ₚ [next_addr w] /\
    exists w'', transport_complete w' = Some w'' /\
      CallbackOnDeadContext (next_addr w) ∈ faults w''.
Proof.
  intros Hl Hlock Hnil Hi Hint Hacc.
  destruct (doAccept_to_wait e a w t1) as (wb & w3 & Hw & Ht & Hc & Hf & _ & _); [done..|].
  rewrite Hw, Hnil. cbn [List.length Nat.add].
  erewrite run_accept_interrupt; [| by eapply accept_step_blocked | done | done].
  unfold clean_and_return. cbn [fst snd]. rewrite run_accept_done.
  eexists. split; [done|].
  pose proof (accept_pending_owes _ _ _ _ _ _ Hacc) as Hperm. rewrite Hnil in Hperm.
  destruct (pending_sole_completion _ _ _ _ _ _ Hnil Hacc) as (st & t2 & Hcomp & _).
  unfold nfc_cb_data_deinit. rewrite Hc. wsimpl. rewrite Ht.
  split_and!; [unfold context_released; wsimpl; rewrite dom_delete_L; set_solver | done | done |].
  unfold transport_complete, nfc_jni_llcp_accept_socket_callback. wsimpl.
  rewrite Ht, Hcomp, lookup_delete_eq. eexists. split; [done|]. wsimpl. set_solver.
Qed.

(** C16. Undefined behaviour at line 136: when [sem_init] fails in
    [nfc_cb_data_init] (line 64), the jump to [clean_and_return] runs
    [nfc_cb_data_deinit], which calls [sem_destroy] on the semaphore that
    was never initialised; [doAccept] returns [NULL] with that fault
    recorded and no completion context created. *)
Theorem doAccept_init_fail_destroys e a w :
  Sem.value (listen_sem w) <> 0 -> ctxs w !! next_addr w = None ->
  sem_init_ok e = false ->
  (forall imm st, accept_contract e imm st (hIncoming w) a = inl InitError) /\
  exists w', doAccept e a w = Some (None, w') /\
    DestroyUninitialised (next_addr w) ∈ faults w' /\ ctxs w' = ctxs w.
Proof.
  intros Hl Hc Hi. split; [intros; unfold accept_contract; by rewrite Hi|]. destruct (Sem.value (listen_sem w)) as [|n] eqn:Hls; [done|].
  unfold doAccept, accept_fuel. cbn [Nat.add].
  erewrite run_accept_step by (by apply accept_step_listen). cbn [fst snd].
  rewrite accept_prepare_init_fails by done.
  unfold clean_and_return, nfc_cb_data_deinit. wsimpl. rewrite Hc.
  rewrite run_accept_done. eexists. split; [done|]. wsimpl. split; [left|done].
Qed.

End AcceptFacts.

Local Open Scope Z_scope.

(** Witness of C1: on the scripted transport, the gate signalled and every
    call succeeding, [doAccept(128, 1, 1024)] returns the object the
    contract prescribes. *)
Lemma doAccept_refines_witness :
  exists w', doAccept (mkEnv true true true false false) (mkArgs 128 1 1024)
               (initial_world 1 7 (SimTransport.mkState [] [] [] ∅)) =
    Some (AcceptSpec.to_jobject
            (AcceptSpec.accept_contract (mkEnv true true true false false) NFCSTATUS_PENDING
               (completion_status (SimTransport.mkState [] [] [(0%nat, 7)] ∅)) 7
               (mkArgs 128 1 1024)), w').
Proof.
  apply (doAccept_refines (mkEnv true true true false false) (mkArgs 128 1 1024)
           (initial_world 1 7 (SimTransport.mkState [] [] [] ∅)) NFCSTATUS_PENDING
           (SimTransport.mkState [] [] [(0%nat, 7)] ∅));
    [vm_compute; discriminate | reflexivity..].
Defined.

(** Witness of C2: the transport rejects the request with
    [NFCSTATUS_FAILED]; [doAccept] returns [null]. *)
Lemma doAccept_branches_witness :
  exists w', doAccept (mkEnv true true true false false) (mkArgs 128 1 1024)
               (initial_world 1 7 (SimTransport.mkState [NFCSTATUS_FAILED] [] [] ∅)) =
    Some (if negb true then None
          else if decide (NFCSTATUS_FAILED = NFCSTATUS_PENDING) then
            if false then None
            else if decide (completion_status (SimTransport.mkState [] [] [] ∅)
                            = NFCSTATUS_SUCCESS) then
              if true then
                if false then Some new_NativeLlcpSocket
                else Some (mkSocket (handle_to_jint 7) 128 1)
              else None
            else None
          else None, w').
Proof.
  apply (doAccept_branches (mkEnv true true true false false) (mkArgs 128 1 1024)
           (initial_world 1 7 (SimTransport.mkState [NFCSTATUS_FAILED] [] [] ∅))
           NFCSTATUS_FAILED (SimTransport.mkState [] [] [] ∅));
    [vm_compute; discriminate | reflexivity..].
Defined.

(** Witness of C3: [malloc] fails, the scripted transport accepts and
    completes; [doAccept] returns a connection object. *)
Lemma doAccept_malloc_unchecked_witness :
  AcceptSpec.accept_contract (mkEnv true false true false false) NFCSTATUS_PENDING
    (completion_status (SimTransport.mkState [] [] [(0%nat, 7)] ∅)) 7 (mkArgs 128 1 1024)
    = inl AcceptSpec.AllocationError /\
  exists w', doAccept (mkEnv true false true false false) (mkArgs 128 1 1024)
               (initial_world 1 7 (SimTransport.mkState [] [] [] ∅)) =
    Some (Some (mkSocket (handle_to_jint 7) 128 1), w').
Proof.
  apply (doAccept_malloc_unchecked (mkEnv true false true false false) (mkArgs 128 1 1024)
           (initial_world 1 7 (SimTransport.mkState [] [] [] ∅))
           (SimTransport.mkState [] [] [(0%nat, 7)] ∅));
    [vm_compute; discriminate | reflexivity..].
Defined.

(** Witness of C4: the class lookup raises; [doAccept] returns the
    default object. *)
Lemma doAccept_partial_object_witness :
  AcceptSpec.accept_contract (mkEnv true true true true false) NFCSTATUS_PENDING
    (completion_status (SimTransport.mkState [] [] [(0%nat, 7)] ∅)) 7 (mkArgs 128 1 1024)
    = inl AcceptSpec.ObjectError /\
  exists w', doAccept (mkEnv true true true true false) (mkArgs 128 1 1024)
               (initial_world 1 7 (SimTransport.mkState [] [] [] ∅)) =
    Some (Some new_NativeLlcpSocket, w').
Proof.
  apply (doAccept_partial_object (mkEnv true true true true false) (mkArgs 128 1 1024)
           (initial_world 1 7 (SimTransport.mkState [] [] [] ∅))
           (SimTransport.mkState [] [] [(0%nat, 7)] ∅));
    [vm_compute; discriminate | reflexivity..].
Defined.

(** Witness of C5: the scripted transport answers [NFCSTATUS_FAILED]. *)
Lemma doAccept_rejected_leaks_witness :
  exists w', doAccept (mkEnv true true true false false) (mkArgs 128 1 1024)
               (initial_world 1 7 (SimTransport.mkState [NFCSTATUS_FAILED] [] [] ∅))
             = Some (None, w') /\
    ~ AcceptSpec.context_released 0 w' /\ ~ AcceptSpec.buffer_released 1 w' /\
    ctxs w' !! 0%nat = Some (mkCb None (Sem.sem_init 0)) /\
    heap w' !! 1%nat = Some (working_buffer_length 128 1 1024) /\
    (0%nat ∉ frames w') /\
    llcp_owed (tr w') = llcp_owed (SimTransport.mkState [NFCSTATUS_FAILED] [] [] ∅).
Proof.
  apply (doAccept_rejected_leaks (mkEnv true true true false false) (mkArgs 128 1 1024)
           (initial_world 1 7 (SimTransport.mkState [NFCSTATUS_FAILED] [] [] ∅))
           NFCSTATUS_FAILED (SimTransport.mkState [] [] [] ∅));
    [vm_compute; discriminate | reflexivity.. | vm_compute; discriminate].
Defined.

(** Witness of C6: a completion reporting [NFCSTATUS_FAILED]; the buffer
    at address 1 is still allocated after [doAccept] returned [null]. *)
Lemma doAccept_keeps_buffer_witness :
  match doAccept (mkEnv true true true false false) (mkArgs 128 1 1024)
          (initial_world 1 7 (SimTransport.mkState [] [NFCSTATUS_FAILED] [] ∅)) with
  | Some (r, w') => ~ AcceptSpec.buffer_released 1 w' /\
      dom (heap (initial_world 1 7 (SimTransport.mkState [] [NFCSTATUS_FAILED] [] ∅))) ⊆ dom (heap w')
  | None => False
  end.
Proof.
  destruct (doAccept _ _ _) as [[r w']|] eqn:E; [|vm_compute in E; discriminate].
  apply (doAccept_keeps_buffer (mkEnv true true true false false) (mkArgs 128 1 1024)
           (initial_world 1 7 (SimTransport.mkState [] [NFCSTATUS_FAILED] [] ∅)) r w');
    [vm_compute; discriminate | reflexivity | reflexivity | exact E].
Defined.

(** Witness of C7: the same failed completion; the context at address 0
    is destroyed and its frame popped. *)
Lemma doAccept_pending_cleans_witness :
  match doAccept (mkEnv true true true false false) (mkArgs 128 1 1024)
          (initial_world 1 7 (SimTransport.mkState [] [NFCSTATUS_FAILED] [] ∅)) with
  | Some (r, w') => AcceptSpec.context_released 0 w'
  | None => False
  end.
Proof.
  destruct (doAccept _ _ _) as [[r w']|] eqn:E; [|vm_compute in E; discriminate].
  apply (doAccept_pending_cleans (mkEnv true true true false false) (mkArgs 128 1 1024)
           (initial_world 1 7 (SimTransport.mkState [] [NFCSTATUS_FAILED] [] ∅))
           (SimTransport.mkState [] [NFCSTATUS_FAILED] [(0%nat, 7)] ∅) r w');
    [vm_compute; discriminate | reflexivity | reflexivity | reflexivity | exact E].
Defined.

(** Witness of C8: a signal interrupts the wait; the completion libnfc
    then delivers for context 0 hits a dead context. *)
Lemma doAccept_interrupt_dangling_witness :
  exists w', doAccept (mkEnv true true true false true) (mkArgs 128 1 1024)
               (initial_world 1 7 (SimTransport.mkState [] [] [] ∅)) = Some (None, w') /\
    AcceptSpec.context_released 0 w' /\
    llcp_owed (tr w') = llcp_owed (SimTransport.mkState [] [] [(0%nat, 7)] ∅) /\
    llcp_owed (SimTransport.mkState [] [] [(0%nat, 7)] ∅) ≡ₚ [0%nat] /\
    exists w'', transport_complete w' = Some w'' /\ CallbackOnDeadContext 0 ∈ faults w''.
Proof.
  apply (doAccept_interrupt_dangling (mkEnv true true true false true) (mkArgs 128 1 1024)
           (initial_world 1 7 (SimTransport.mkState [] [] [] ∅))
           (SimTransport.mkState [] [] [(0%nat, 7)] ∅));
    [vm_compute; discriminate | reflexivity..].
Defined.

(** Witness of C16: [sem_init] fails on the first accept of a fresh
    process with one pending arrival. *)
Lemma doAccept_init_fail_destroys_witness :
  (forall imm st, AcceptSpec.accept_contract (mkEnv false true true false false) imm st 7
                    (mkArgs 128 1 1024) = inl AcceptSpec.InitError) /\
  exists w', doAccept (mkEnv false true true false false) (mkArgs 128 1 1024)
      (initial_world 1 7 (SimTransport.mkState [] [] [] ∅)) = Some (None, w') /\
    DestroyUninitialised 0 ∈ faults w' /\ ctxs w' = ∅.
Proof.
  apply (doAccept_init_fail_destroys (mkEnv false true true false false) (mkArgs 128 1 1024)
           (initial_world 1 7 (SimTransport.mkState [] [] [] ∅))); vm_compute; congruence.
Defined.
