(* ===== verification/Termination.v ===== *)
(** * [doAccept] returns, whatever libnfc still owes

    [run_accept] is a function with fuel; [doAccept] gives it
    [accept_fuel]. The theorem of this file is that this fuel is enough
    in every state where the Listen Gate is signalled and the mutex is
    free, for every lawful transport and however many completions of
    earlier accepts libnfc still owes: while the thread waits at line 95,
    each completion libnfc delivers pays one debt (law [complete_pays]),
    a debt is always eventually paid (law [complete_progress]), and the
    one of this call wakes the thread. The measure is the number of
    completions owed. *)

From S2P Require Import Prelude Jni Semaphore Transport State Accept AcceptFacts.

Section Measure.
Context `{LlcpTransport T}.

(** The measure of the wait: the completions libnfc owes. *)
Definition owed_measure (w : World T) : nat := List.length (llcp_owed (tr w)).

End Measure.

Section Termination.
Context `{LlcpTransportLaws T}.

(** One completion while a context [c] waits: libnfc pays one debt; it
    either signals [c] or leaves [c]'s context as it was with [c]'s debt
    still owed. *)
Lemma transport_complete_wait c cb (w : World T) :
  ctxs w !! c = Some cb -> c ∈ frames w -> c ∈ llcp_owed (tr w) ->
  exists w', transport_complete w = Some w' /\
    S (List.length (llcp_owed (tr w'))) = List.length (llcp_owed (tr w)) /\
    frames w' = frames w /\
    ((exists st, ctxs w' !! c = Some (mkCb (Some st) (Sem.sem_post (sem cb)))) \/
     (ctxs w' !! c = Some cb /\ c ∈ llcp_owed (tr w'))).
Proof.
  intros Hc Hf Ho.
  destruct (complete_progress (tr w)) as [[[c' st] t'] Hcomp];
    [by intros Hn; rewrite Hn in Ho; apply not_elem_of_nil in Ho|].
  pose proof (complete_pays _ _ _ _ Hcomp) as Hperm.
  unfold transport_complete. rewrite Hcomp. eexists. split; [reflexivity|].
  pose proof (Permutation_length Hperm) as Hlen. cbn [List.length] in Hlen.
  unfold nfc_jni_llcp_accept_socket_callback. wsimpl.
  destruct (decide (c' = c)) as [->|Hne].
  - rewrite Hc, decide_True by done. wsimpl. split_and!; [done | done |].
    left. exists st. by rewrite lookup_insert_eq.
  - assert (c ∈ llcp_owed t') as Ho'.
    { rewrite Hperm in Ho. apply elem_of_cons in Ho as [|]; congruence. }
    destruct (ctxs w !! c') as [cb'|]; [case_decide|]; wsimpl;
      (split_and!; [done | done |]); right; rewrite ?lookup_insert_ne by done; done.
Qed.

(** From the wait of line 95, with the context live and either already
    signalled or owed a completion: the thread returns within one step
    more than the completions owed. *)
Lemma run_wait_returns n f e a c wb (w : World T) cb :
  owed_measure w <= n -> n < f ->
  ctxs w !! c = Some cb -> c ∈ frames w ->
  Sem.value (sem cb) <> 0 \/ c ∈ llcp_owed (tr w) ->
  is_Some (run_accept f e a (AccWaitCb c wb) w).
Proof.
  revert f w cb. induction n as [|n IH]; intros f w cb Hlen Hf Hc Hfr Hsig;
    (destruct f as [|f]; [lia|]).
  all: destruct (Sem.value (sem cb)) as [|k] eqn:Hk.
  2,4: erewrite run_accept_step by (by eapply accept_step_wake); cbn [fst snd];
       destruct (accept_wake_clean e a c (set_ctxs (<[c := mkCb (status cb) (Sem.mkSem k)]>
                                                     (ctxs w)) w)) as [r ->];
       unfold clean_and_return; cbn [fst]; by rewrite run_accept_done.
  all: destruct Hsig as [|Ho]; [done|].
  - unfold owed_measure in Hlen.
    destruct (llcp_owed (tr w)); [by apply not_elem_of_nil in Ho | cbn in Hlen; lia].
  - destruct (interrupted e) eqn:Hi.
    + erewrite run_accept_interrupt; [| by eapply accept_step_blocked | done | done].
      unfold clean_and_return. cbn [fst]. by rewrite run_accept_done.
    + destruct (transport_complete_wait c cb w) as (w' & Hw' & Hl' & Hf' & Hcase);
        [done..|].
      erewrite run_accept_complete; [| by intros ? | by eapply accept_step_blocked | done | done].
      destruct Hcase as [[st Hc']|[Hc' Ho']].
      * eapply (IH f w' _); [unfold owed_measure in *; lia | lia | exact Hc' | by rewrite Hf' |].
        left. cbn [sem]. destruct (sem cb); cbn. lia.
      * eapply (IH f w' cb); [unfold owed_measure in *; lia | lia | done | by rewrite Hf' | by right].
Qed.

End Termination.

Section TerminationTheorems.
Context `{LlcpTransportLaws T}.

(** C17. Termination of [doAccept] (spec, sections 4.2 and 6): once the
    Listen Gate is signalled and the reentrance mutex is free, the thread
    returns within five steps plus one per completion libnfc still owes,
    for every lawful transport and every outcome of [sem_init], [malloc],
    the transport call, an interruption and the object creation; so
    [doAccept], whose fuel [accept_fuel] is one more, returns. *)
Theorem doAccept_terminates e a (w : World T) :
  Sem.value (listen_sem w) <> 0 -> lock w = None ->
  is_Some (doAccept e a w) /\
  forall f, 5 + owed_measure w <= f -> is_Some (run_accept f e a AccWaitListen w).
Proof.
  intros Hl Hlock.
  assert (Hf : forall f, 5 + owed_measure w <= f ->
            is_Some (run_accept f e a AccWaitListen w)).
  { intros f Hf. destruct (sem_init_ok e) eqn:Hi.
    - destruct f as [|[|f]]; [lia..|].
      destruct (run_to_call f e a w) as (w2 & -> & Ht & Hc & Hfr & Hh); [done..|].
      destruct f as [|f]; [lia|]. erewrite run_accept_step by done. cbn [fst snd].
      unfold accept_call.
      destruct (phLibNfc_Llcp_Accept (tr w2) _ _ _ _) as [ret t1] eqn:Hacc.
      case_decide as Hp; cbn [fst snd].
      + subst ret. pose proof (accept_pending_owes _ _ _ _ _ _ Hacc) as Hperm.
        rewrite Ht in Hperm.
        eapply (run_wait_returns (owed_measure (set_tr t1 w2))); unfold owed_measure in *; wsimpl;
          [done | rewrite (Permutation_length Hperm); cbn; lia | exact Hc | done |].
        right. rewrite Hperm. by apply elem_of_cons; left.
      + unfold return_early. cbn [fst]. by rewrite run_accept_done.
    - destruct (Sem.value (listen_sem w)) as [|n] eqn:Hls; [done|].
      destruct f as [|f]; [lia|].
      erewrite run_accept_step by (by apply accept_step_listen). cbn [fst snd].
      rewrite accept_prepare_init_fails by done.
      unfold clean_and_return. cbn [fst]. by rewrite run_accept_done. }
  split; [|exact Hf]. unfold doAccept. apply Hf. unfold accept_fuel, owed_measure. lia.
Qed.

End TerminationTheorems.

Local Open Scope Z_scope.

(** Witness of C17: the gate signalled, and libnfc still owing the
    completions of two earlier accepts (contexts 3 and 4) when this call
    starts. *)
Lemma doAccept_terminates_witness :
  is_Some (doAccept (mkEnv true true true false false) (mkArgs 128 1 1024)
             (initial_world 1 7 (SimTransport.mkState [] [] [(3%nat, 1); (4%nat, 2)] ∅))) /\
  forall f, (5 + owed_measure (initial_world 1 7%Z
                   (SimTransport.mkState [] [] [(3, 1%Z); (4, 2%Z)] ∅)) <= f)%nat ->
    is_Some (run_accept f (mkEnv true true true false false) (mkArgs 128 1 1024) AccWaitListen
               (initial_world 1 7 (SimTransport.mkState [] [] [(3%nat, 1); (4%nat, 2)] ∅))).
Proof.
  apply (doAccept_terminates (mkEnv true true true false false) (mkArgs 128 1 1024)
           (initial_world 1 7 (SimTransport.mkState [] [] [(3%nat, 1); (4%nat, 2)] ∅)));
    [vm_compute; discriminate | reflexivity].
Defined.
