(* ===== verification/Close.v ===== *)
(** * [com_NativeLlcpServiceSocket_doClose] (lines 140-162)

    The close call as a thread: it reads the handle of the Java service
    socket (line 147), takes the reentrance mutex (line 149), calls
    [phLibNfc_Llcp_Close] (line 150), releases the mutex (line 151) and
    returns whether the status was [NFCSTATUS_SUCCESS] (lines 152-161).
    The mutex is its only blocking point: it waits on no semaphore. The
    theorem shows the value returned and that the call touches neither
    the Listen Gate, any completion context nor the heap. Whether a
    second close of the same socket fails is up to libnfc: the code only
    passes the handle on and reports the status. *)

From S2P Require Import Prelude Jni Semaphore Transport State.

(** The Java object [com.android.nfc.NativeLlcpServiceSocket]: the field
    [nfc_jni_get_nfc_socket_handle] reads. *)
Record NativeLlcpServiceSocket := mkServiceSocket { svc_mHandle : phLibNfc_Handle }.

Definition nfc_jni_get_nfc_socket_handle (o : NativeLlcpServiceSocket) : phLibNfc_Handle :=
  svc_mHandle o.

Inductive close_pc :=
| CloseLock (h : phLibNfc_Handle)   (* line 149 *)
| CloseCall (h : phLibNfc_Handle)   (* lines 150-161, mutex held *)
| CloseDone (b : bool).             (* returned *)

Section Close.
Context `{LlcpTransport T}.

(** Line 147: the handle is read before the mutex is taken. *)
Definition close_start (o : NativeLlcpServiceSocket) : close_pc :=
  CloseLock (nfc_jni_get_nfc_socket_handle o).

(** Lines 150-161. *)
Definition close_call (h : phLibNfc_Handle) (w : World T) : close_pc * World T :=
  let (ret, t') := phLibNfc_Llcp_Close (tr w) h in
  (CloseDone (bool_decide (ret = NFCSTATUS_SUCCESS)), REENTRANCE_UNLOCK (set_tr t' w)).

(** One step of the thread running [doClose]; [None] when it blocks. *)
Definition close_step (tid : nat) (pc : close_pc) (w : World T) : option (close_pc * World T) :=
  match pc with
  | CloseLock h => w' ← REENTRANCE_LOCK tid w; Some (CloseCall h, w')
  | CloseCall h => Some (close_call h w)
  | CloseDone _ => None
  end.

(** The whole call, run by thread 0: [None] when it blocks on the mutex. *)
Definition doClose (o : NativeLlcpServiceSocket) (w : World T) : option (bool * World T) :=
  '(pc1, w1) ← close_step 0 (close_start o) w;
  '(pc2, w2) ← close_step 0 pc1 w1;
  match pc2 with
  | CloseDone b => Some (b, w2)
  | _ => None
  end.

End Close.

Section CloseFacts.
Context `{LlcpTransportLaws T}.

(** C12. With the mutex free, [doClose] returns [true] exactly when
    [phLibNfc_Llcp_Close] on the socket's handle answers
    [NFCSTATUS_SUCCESS]; it leaves the mutex free, the transport in the
    state the close left it, and the Listen Gate, the completion contexts
    and the heap as they were: it never waits on a semaphore. *)
Theorem doClose_spec o (w : World T) ret t' :
  lock w = None ->
  phLibNfc_Llcp_Close (tr w) (svc_mHandle o) = (ret, t') ->
  exists w', doClose o w = Some (bool_decide (ret = NFCSTATUS_SUCCESS), w') /\
    lock w' = None /\ tr w' = t' /\ listen_sem w' = listen_sem w /\
    ctxs w' = ctxs w /\ heap w' = heap w.
Proof.
  intros Hl Hc. unfold doClose, close_start, nfc_jni_get_nfc_socket_handle.
  cbn [close_step]. unfold REENTRANCE_LOCK. rewrite Hl. cbn [mbind option_bind close_step].
  unfold close_call. wsimpl. rewrite Hc. eexists. split; [done|]. by wsimpl.
Qed.

(** With the mutex held by another thread, [doClose] blocks. *)
Lemma doClose_blocks o (w : World T) i : lock w = Some i -> doClose o w = None.
Proof. intros Hl. unfold doClose. cbn [close_step close_start]. unfold REENTRANCE_LOCK. by rewrite Hl. Qed.

End CloseFacts.

Local Open Scope Z_scope.

(** Witness of C12: the scripted transport has socket 5 open. *)
Lemma doClose_spec_witness :
  exists w', doClose (mkServiceSocket 5) (initial_world 0 0 (SimTransport.mkState [] [] [] {[5%Z]}))
             = Some (bool_decide (NFCSTATUS_SUCCESS = NFCSTATUS_SUCCESS), w') /\
    lock w' = None /\ tr w' = SimTransport.mkState [] [] [] ∅ /\
    listen_sem w' = listen_sem (initial_world 0 0 (SimTransport.mkState [] [] [] {[5%Z]})) /\
    ctxs w' = ctxs (initial_world 0 0 (SimTransport.mkState [] [] [] {[5%Z]})) /\
    heap w' = heap (initial_world 0 0 (SimTransport.mkState [] [] [] {[5%Z]})).
Proof.
  apply (doClose_spec (mkServiceSocket 5) (initial_world 0 0 (SimTransport.mkState [] [] [] {[5%Z]}))
           NFCSTATUS_SUCCESS (SimTransport.mkState [] [] [] ∅)); [reflexivity|].
  vm_compute. reflexivity.
Defined.
