(* ===== verification/System.v ===== *)
(** * The bridge in a concurrent process

    Any number of Java threads run [doAccept] and [doClose] at once, the
    libnfc thread delivers accept completions, and the NFC manager's
    listen callback announces incoming connections. [sys_step] is one
    step of one of them on the shared [World]: a thread runs one stretch
    of its code ([accept_step], [close_step]) or is interrupted in a
    blocked [sem_wait] ([accept_interrupt]); libnfc runs the accept
    callback ([transport_complete]) or abandons an accept through the
    error callback ([transport_fail]); a connection arrives
    ([llcp_listen_notify]). The ghost counters [posted] and [passed]
    count the arrivals and the passages of the Listen Gate. The theorems
    are invariants over every interleaving, proved by induction on the
    steps (the gate's accounting, mutual exclusion, the mutex always
    released by its holder), the soundness of the executable scheduler
    [sys_run] for the step relation, the gate's behaviour on one
    arrival, and concrete interleavings that expose the races on
    [hIncommingLlcpSocket]. *)

From S2P Require Import Prelude Jni Semaphore Transport State Accept Close.

Inductive thread :=
| TAccept (e : jni_env) (a : accept_args) (pc : accept_pc)
| TClose (pc : close_pc).

Record Sys (T : Type) := mkSys {
  threads : list thread;
  world : World T;
  posted : nat;   (* arrivals announced so far *)
  passed : nat;   (* accept calls that went through the Listen Gate *)
}.
Arguments mkSys {T}.
Arguments threads {T}.
Arguments world {T}.
Arguments posted {T}.
Arguments passed {T}.

(** The threads inside the critical section of the reentrance mutex:
    between [REENTRANCE_LOCK] and [REENTRANCE_UNLOCK]. *)
Definition in_cs (th : thread) : bool :=
  match th with
  | TAccept _ _ (AccCall _ _ _) | TClose (CloseCall _) => true
  | _ => false
  end.

Definition at_gate (pc : accept_pc) : bool :=
  match pc with AccWaitListen => true | _ => false end.

(** The Listen Gate's accounting: its tokens plus the passages equal the
    initial tokens [k] plus the arrivals. *)
Definition gate_inv {T} (k : nat) (s : Sys T) : Prop :=
  Sem.value (listen_sem (world s)) + passed s = k + posted s.

(** The mutex is held by thread [i] exactly when [i] is inside the
    critical section. *)
Definition lock_inv {T} (s : Sys T) : Prop :=
  forall i th, threads s !! i = Some th -> in_cs th = true <-> lock (world s) = Some i.

(** How one thread's step may change the mutex: it takes it and enters,
    it leaves and releases it, or neither. *)
Definition lock_effect {T} (j : nat) (th th' : thread) (w w' : World T) : Prop :=
  (in_cs th' = true /\ lock w = None /\ lock w' = Some j) \/
  (in_cs th = true /\ in_cs th' = false /\ lock w' = None) \/
  (in_cs th = in_cs th' /\ lock w' = lock w).

(** Whoever holds the mutex is a thread of the process. *)
Definition lock_owner {T} (s : Sys T) : Prop :=
  forall i, lock (world s) = Some i -> is_Some (threads s !! i).

Section System.
Context `{LlcpTransport T}.

Inductive sys_step : Sys T -> Sys T -> Prop :=
| step_accept i e a pc pc' w' ths w n m :
    ths !! i = Some (TAccept e a pc) ->
    accept_step e i a pc w = Some (pc', w') ->
    sys_step (mkSys ths w n m)
             (mkSys (<[i := TAccept e a pc']> ths) w' n (if at_gate pc then S m else m))
| step_interrupt i e a pc pc' w' ths w n m :
    ths !! i = Some (TAccept e a pc) ->
    accept_step e i a pc w = None -> interrupted e = true ->
    accept_interrupt pc w = Some (pc', w') ->
    sys_step (mkSys ths w n m) (mkSys (<[i := TAccept e a pc']> ths) w' n m)
| step_close i pc pc' w' ths w n m :
    ths !! i = Some (TClose pc) ->
    close_step i pc w = Some (pc', w') ->
    sys_step (mkSys ths w n m) (mkSys (<[i := TClose pc']> ths) w' n m)
| step_libnfc w' ths w n m :
    transport_complete w = Some w' ->
    sys_step (mkSys ths w n m) (mkSys ths w' n m)
| step_libfail w' ths w n m :
    transport_fail w = Some w' ->
    sys_step (mkSys ths w n m) (mkSys ths w' n m)
| step_incoming h ths w n m :
    sys_step (mkSys ths w n m) (mkSys ths (llcp_listen_notify h w) (S n) m).

(** An executable scheduler: one event of the process. *)
Inductive event :=
| EvThread (i : nat)       (* thread i runs its next stretch of code *)
| EvInterrupt (i : nat)    (* a signal interrupts thread i in sem_wait *)
| EvLibnfc                 (* libnfc delivers its next completion *)
| EvLibfail                (* libnfc abandons an accept through the error callback *)
| EvIncoming (h : phLibNfc_Handle).  (* a connection with handle h arrives *)

Definition sys_exec (ev : event) (s : Sys T) : option (Sys T) :=
  match ev with
  | EvThread i =>
      th ← threads s !! i;
      match th with
      | TAccept e a pc =>
          '(pc', w') ← accept_step e i a pc (world s);
          Some (mkSys (<[i := TAccept e a pc']> (threads s)) w' (posted s)
                  (if at_gate pc then S (passed s) else passed s))
      | TClose pc =>
          '(pc', w') ← close_step i pc (world s);
          Some (mkSys (<[i := TClose pc']> (threads s)) w' (posted s) (passed s))
      end
  | EvInterrupt i =>
      th ← threads s !! i;
      match th with
      | TAccept e a pc =>
          match accept_step e i a pc (world s) with
          | Some _ => None
          | None =>
              if interrupted e then
                '(pc', w') ← accept_interrupt pc (world s);
                Some (mkSys (<[i := TAccept e a pc']> (threads s)) w' (posted s) (passed s))
              else None
          end
      | TClose _ => None
      end
  | EvLibnfc =>
      w' ← transport_complete (world s);
      Some (mkSys (threads s) w' (posted s) (passed s))
  | EvLibfail =>
      w' ← transport_fail (world s);
      Some (mkSys (threads s) w' (posted s) (passed s))
  | EvIncoming h =>
      Some (mkSys (threads s) (llcp_listen_notify h (world s)) (S (posted s)) (passed s))
  end.

Fixpoint sys_run (evs : list event) (s : Sys T) : option (Sys T) :=
  match evs with
  | [] => Some s
  | ev :: evs' => s' ← sys_exec ev s; sys_run evs' s'
  end.

End System.

(** Unfold every operation on the world and split on its tests. *)
Ltac destruct_bind :=
  match goal with H : context [?x ≫= _] |- _ => destruct x eqn:? end.

Ltac unfold_ops :=
  unfold transport_complete, transport_fail, nfc_jni_llcp_transport_socket_err_callback,
    accept_prepare, accept_call, accept_wake, clean_and_return,
    return_early, close_call, nfc_cb_data_init, nfc_cb_data_deinit, malloc,
    nfc_jni_llcp_accept_socket_callback in *;
  repeat (wsimpl; first [case_match | case_decide | destruct_bind]);
  wsimpl; simplify_eq; wsimpl.

Ltac solve_effect :=
  first [left; split_and!; done | right; left; split_and!; done
        | right; right; split_and!; done].

Section SystemFacts.
Context `{LlcpTransport T}.

(** ** What each stretch of code does to the gate and to the mutex *)

Lemma accept_step_gate e i a pc (w : World T) pc' w' :
  accept_step e i a pc w = Some (pc', w') ->
  if at_gate pc then S (Sem.value (listen_sem w')) = Sem.value (listen_sem w)
  else listen_sem w' = listen_sem w.
Proof.
  destruct pc; cbn [accept_step at_gate]; unfold REENTRANCE_LOCK;
    [destruct (listen_sem w) as [[|k]] eqn:Hl; cbn [Sem.sem_trywait Sem.value mbind option_bind];
       [done|] | .. ]; intros Hs; unfold_ops; rewrite ?Hl; done.
Qed.

Lemma accept_interrupt_gate pc (w : World T) pc' w' :
  accept_interrupt pc w = Some (pc', w') -> listen_sem w' = listen_sem w /\ lock w' = lock w.
Proof. destruct pc; cbn [accept_interrupt]; intros Hs; unfold_ops; split_and!; done. Qed.

Lemma close_step_gate i pc (w : World T) pc' w' :
  close_step i pc w = Some (pc', w') -> listen_sem w' = listen_sem w.
Proof. destruct pc; cbn [close_step]; unfold REENTRANCE_LOCK; intros Hs; unfold_ops; done. Qed.

Lemma transport_complete_frame (w w' : World T) :
  transport_complete w = Some w' ->
  listen_sem w' = listen_sem w /\ lock w' = lock w /\ hIncoming w' = hIncoming w.
Proof. intros Hs. unfold_ops; split_and!; done. Qed.

(** The error callback leaves the whole world but the transport as it was. *)
Lemma transport_fail_frame (w w' : World T) :
  transport_fail w = Some w' -> exists t', w' = set_tr t' w.
Proof. intros Hs. unfold_ops. eauto. Qed.

Lemma accept_step_lock_effect e i a pc (w : World T) pc' w' :
  accept_step e i a pc w = Some (pc', w') ->
  lock_effect i (TAccept e a pc) (TAccept e a pc') w w'.
Proof.
  unfold lock_effect. destruct pc; cbn [accept_step]; unfold REENTRANCE_LOCK;
    intros Hs; unfold_ops; cbn [in_cs]; solve_effect.
Qed.

Lemma close_step_lock_effect i pc (w : World T) pc' w' :
  close_step i pc w = Some (pc', w') -> lock_effect i (TClose pc) (TClose pc') w w'.
Proof.
  unfold lock_effect. destruct pc; cbn [close_step]; unfold REENTRANCE_LOCK;
    intros Hs; unfold_ops; cbn [in_cs]; solve_effect.
Qed.

Lemma accept_interrupt_not_cs e a pc (w : World T) pc' w' :
  accept_interrupt pc w = Some (pc', w') ->
  in_cs (TAccept e a pc) = false /\ in_cs (TAccept e a pc') = false.
Proof. destruct pc; cbn [accept_interrupt]; intros Hs; unfold_ops; done. Qed.

(** ** The invariants are preserved by every step *)

Lemma gate_inv_step k (s s' : Sys T) : gate_inv k s -> sys_step s s' -> gate_inv k s'.
Proof.
  unfold gate_inv. intros Hinv Hs.
  destruct Hs as [i e a pc pc' w' ths w n m Hth Hst|i e a pc pc' w' ths w n m Hth _ _ Hint
                 |i pc pc' w' ths w n m Hth Hcl|w' ths w n m Hc|w' ths w n m Hc
                 |h ths w n m];
    cbn [world passed posted] in *.
  - apply accept_step_gate in Hst. destruct (at_gate pc); [lia|]. by rewrite Hst.
  - by destruct (accept_interrupt_gate _ _ _ _ Hint) as [-> _].
  - by rewrite (close_step_gate _ _ _ _ _ Hcl).
  - by destruct (transport_complete_frame _ _ Hc) as [-> _].
  - by destruct (transport_fail_frame _ _ Hc) as [? ->].
  - unfold llcp_listen_notify. wsimpl. lia.
Qed.

Lemma lock_inv_replace (ths : list thread) (w w' : World T) n m j th th' :
  ths !! j = Some th -> lock_effect j th th' w w' ->
  lock_inv (mkSys ths w n m) -> lock_inv (mkSys (<[j := th']> ths) w' n m).
Proof.
  unfold lock_inv, lock_effect. cbn [threads world]. intros Hj Heff Hinv i thi Hi.
  pose proof (Hinv j th Hj) as Hjinv.
  destruct (decide (i = j)) as [->|Hne].
  - rewrite list_lookup_insert_eq in Hi by (eapply lookup_lt_Some; eauto). simplify_eq.
    destruct Heff as [(Ha & _ & ->)|[(_ & Hb & ->)|(Heq & ->)]].
    + by rewrite Ha.
    + by rewrite Hb.
    + rewrite <- Heq. apply Hjinv.
  - rewrite list_lookup_insert_ne in Hi by done. pose proof (Hinv i thi Hi) as Hiinv.
    destruct Heff as [(_ & Hl & ->)|[(Hc & _ & ->)|(_ & ->)]]; [| |done].
    + rewrite Hl in Hiinv. split; intros Hx; [apply Hiinv in Hx; discriminate | congruence].
    + apply Hjinv in Hc. rewrite Hc in Hiinv.
      split; intros Hx; [apply Hiinv in Hx; congruence | discriminate].
Qed.

Lemma lock_inv_step (s s' : Sys T) : lock_inv s -> sys_step s s' -> lock_inv s'.
Proof.
  intros Hinv Hs. destruct Hs as [i e a pc pc' w' ths w n m Hth Hst
                                 |i e a pc pc' w' ths w n m Hth _ _ Hint
                                 |i pc pc' w' ths w n m Hth Hst|w' ths w n m Hc
                                 |w' ths w n m Hc|h ths w n m].
  - eapply lock_inv_replace; [done | by eapply accept_step_lock_effect | done].
  - eapply (lock_inv_replace _ _ _ _ _ i (TAccept e a pc)); [done | | done].
    destruct (accept_interrupt_gate _ _ _ _ Hint) as [_ Hl].
    destruct (accept_interrupt_not_cs e a _ _ _ _ Hint) as [H1 H2].
    unfold lock_effect. right; right. by rewrite H1, H2.
  - eapply lock_inv_replace; [done | by eapply close_step_lock_effect | done].
  - destruct (transport_complete_frame _ _ Hc) as (_ & Hl & _).
    intros i th Hi. cbn [world threads] in *. rewrite Hl. by apply (Hinv i th).
  - destruct (transport_fail_frame _ _ Hc) as [t' ->]. apply Hinv.
  - intros i th Hi. apply (Hinv i th Hi).
Qed.

(** Past the gate, the thread leaves the gate as it found it. *)
Lemma accept_prepare_listen e a (w : World T) :
  listen_sem (accept_prepare e a w).2 = listen_sem w.
Proof.
  unfold accept_prepare, nfc_cb_data_init, malloc, clean_and_return, nfc_cb_data_deinit.
  repeat case_match; simplify_eq; wsimpl; done.
Qed.

Lemma lock_owner_step (s s' : Sys T) : lock_owner s -> sys_step s s' -> lock_owner s'.
Proof.
  unfold lock_owner. intros Hown Hs.
  destruct Hs as [j e a pc pc' w' ths w n m Hth Hst|j e a pc pc' w' ths w n m Hth _ _ Hint
                 |j pc pc' w' ths w n m Hth Hcl|w' ths w n m Hc|w' ths w n m Hc|h ths w n m];
    cbn [threads world] in *; intros k Hk; rewrite ?list_lookup_insert_is_Some.
  - destruct (accept_step_lock_effect _ _ _ _ _ _ _ Hst) as [(_ & _ & Hl)|[(_ & _ & Hl)|(_ & Hl)]];
      rewrite Hl in Hk; simplify_eq; eauto.
  - destruct (accept_interrupt_gate _ _ _ _ Hint) as [_ Hl]. rewrite Hl in Hk. eauto.
  - destruct (close_step_lock_effect _ _ _ _ _ Hcl) as [(_ & _ & Hl)|[(_ & _ & Hl)|(_ & Hl)]];
      rewrite Hl in Hk; simplify_eq; eauto.
  - destruct (transport_complete_frame _ _ Hc) as (_ & Hl & _). rewrite Hl in Hk. eauto.
  - destruct (transport_fail_frame _ _ Hc) as [t' ->]. eauto.
  - eauto.
Qed.

(** The stretches of code that leave the critical section release the
    mutex on every branch, the early return of line 90 included. *)
Lemma accept_call_releases e a c o wb (w : World T) :
  lock (accept_call c o wb w).2 = None /\ in_cs (TAccept e a (accept_call c o wb w).1) = false.
Proof.
  unfold accept_call, return_early.
  destruct (phLibNfc_Llcp_Accept _ _ _ _ _); case_decide; done.
Qed.

Lemma close_call_releases h (w : World T) :
  lock (close_call h w).2 = None /\ in_cs (TClose (close_call h w).1) = false.
Proof. unfold close_call. by destruct (phLibNfc_Llcp_Close _ _). Qed.

Lemma lock_invs_reach (s s' : Sys T) :
  lock (world s) = None -> (forall i th, threads s !! i = Some th -> in_cs th = false) ->
  rtc sys_step s s' -> lock_inv s' /\ lock_owner s'.
Proof.
  intros Hl Hout Hr.
  refine (rtc_preserved _ (fun x => lock_inv x /\ lock_owner x) _ _ _ Hr _).
  - intros x y [H1 H2] Hs. split; [by eapply lock_inv_step | by eapply lock_owner_step].
  - split; [intros i th Hi; by rewrite Hl, (Hout i th Hi) | intros i; by rewrite Hl].
Qed.

End SystemFacts.

Section SystemTheorems.
Context `{LlcpTransport T}.

(** C10. The Listen Gate lets through at most one accept call per
    announced connection: in every interleaving of any number of
    [doAccept] and [doClose] threads with libnfc and the arrivals, the
    number of accept calls that have passed line 58 never exceeds the
    initial tokens plus the arrivals (spec, sections 3 and 4.1). *)
Theorem gate_one_passage_per_signal k (s s' : Sys T) :
  gate_inv k s -> rtc sys_step s s' -> passed s' <= k + posted s'.
Proof.
  intros Hinv Hrtc.
  pose proof (rtc_preserved _ _ (gate_inv_step k) _ _ Hrtc Hinv) as Hinv'.
  unfold gate_inv in Hinv'. lia.
Qed.

(** C11. Mutual exclusion of the reentrance mutex (spec, section 5):
    starting with no thread inside the critical section and the mutex
    free, in every interleaving at most one thread is between
    [REENTRANCE_LOCK] and [REENTRANCE_UNLOCK], and the mutex is held
    exactly by that thread: the transport is never entered twice at once. *)
Theorem reentrance_mutual_exclusion (s s' : Sys T) :
  lock (world s) = None -> (forall i th, threads s !! i = Some th -> in_cs th = false) ->
  rtc sys_step s s' ->
  lock_inv s' /\
  forall i j thi thj, threads s' !! i = Some thi -> threads s' !! j = Some thj ->
    in_cs thi = true -> in_cs thj = true -> i = j.
Proof.
  intros Hl Hout Hrtc.
  assert (Hinv : lock_inv s).
  { intros i th Hi. rewrite Hl, (Hout i th Hi). done. }
  pose proof (rtc_preserved _ _ lock_inv_step _ _ Hrtc Hinv) as Hinv'.
  split; [done|]. intros i j thi thj Hi Hj Hci Hcj.
  apply (Hinv' i thi Hi) in Hci. apply (Hinv' j thj Hj) in Hcj. congruence.
Qed.

End SystemTheorems.


Section Scheduler.
Context `{LlcpTransport T}.

(** Every event the scheduler executes is a step of the process. *)
Lemma sys_exec_step ev (s s' : Sys T) : sys_exec ev s = Some s' -> sys_step s s'.
Proof.
  intros Hev. destruct s as [ths w n m].
  destruct ev as [i|i| | |h]; cbn [sys_exec threads world posted passed] in Hev.
  - destruct (ths !! i) as [[e a pc|pc]|] eqn:Hth; cbn [mbind option_bind] in Hev; [..|done].
    + destruct (accept_step e i a pc w) as [[pc' w']|] eqn:Hst; cbn [mbind option_bind] in Hev;
        [|done].
      simplify_eq. by eapply step_accept.
    + destruct (close_step i pc w) as [[pc' w']|] eqn:Hst; cbn [mbind option_bind] in Hev;
        [|done].
      simplify_eq. by eapply step_close.
  - destruct (ths !! i) as [[e a pc|pc]|] eqn:Hth; cbn [mbind option_bind] in Hev; [|done..].
    destruct (accept_step e i a pc w) eqn:Hst; [done|].
    destruct (interrupted e) eqn:Hi; [|done].
    destruct (accept_interrupt pc w) as [[pc' w']|] eqn:Hint; cbn [mbind option_bind] in Hev;
      [|done].
    simplify_eq. by eapply step_interrupt.
  - destruct (transport_complete w) as [w'|] eqn:Hc; cbn [mbind option_bind] in Hev; [|done].
    simplify_eq. by apply step_libnfc.
  - destruct (transport_fail w) as [w'|] eqn:Hc; cbn [mbind option_bind] in Hev; [|done].
    simplify_eq. by apply step_libfail.
  - simplify_eq. apply step_incoming.
Qed.

Lemma sys_run_sound evs (s s' : Sys T) : sys_run evs s = Some s' -> rtc sys_step s s'.
Proof.
  revert s. induction evs as [|ev evs IH]; intros s Hrun; cbn [sys_run] in Hrun.
  - simplify_eq. apply rtc_refl.
  - destruct (sys_exec ev s) as [s1|] eqn:Hs; cbn [mbind option_bind] in Hrun; [|done].
    eapply rtc_l; [by eapply sys_exec_step | eauto].
Qed.

End Scheduler.

Section GateLiveness.
Context `{LlcpTransport T}.

(** C21. Liveness of the Listen Gate (spec, section 8: "calling accept()
    without a prior gate signal blocks until a signal is posted; posting
    the signal exactly once unblocks exactly one waiting accept call"):
    with the gate empty, a waiting thread cannot pass; after one arrival
    it passes, and then another waiting thread is blocked again. *)
Theorem gate_unblocks_one (s : Sys T) h i j ei ai ej aj :
  Sem.value (listen_sem (world s)) = 0 ->
  threads s !! i = Some (TAccept ei ai AccWaitListen) ->
  threads s !! j = Some (TAccept ej aj AccWaitListen) -> i <> j ->
  sys_exec (EvThread i) s = None /\
  exists s1, sys_run [EvIncoming h; EvThread i] s = Some s1 /\
    passed s1 = S (passed s) /\ sys_exec (EvThread j) s1 = None.
Proof.
  intros Hv Hi Hj Hne. destruct s as [ths w n m]. cbn [threads world passed] in *.
  destruct (listen_sem w) as [v] eqn:Hl. cbn in Hv. subst v.
  split.
  - cbn [sys_exec threads world]. rewrite Hi. cbn [mbind option_bind accept_step].
    by rewrite Hl.
  - cbn [sys_run sys_exec mbind option_bind threads world posted passed]. rewrite Hi.
    cbn [mbind option_bind accept_step at_gate]. unfold llcp_listen_notify. wsimpl.
    rewrite Hl. cbn [Sem.sem_post Sem.sem_trywait Sem.value mbind option_bind].
    destruct (accept_prepare ei ai _) as [pc' w'] eqn:Hp.
    pose proof (f_equal (fun p => listen_sem p.2) Hp) as Hlw.
    cbv beta in Hlw. rewrite accept_prepare_listen in Hlw. cbn [snd] in Hlw. wsimpl.
    eexists. split; [reflexivity|]. split; [done|].
    cbn [sys_exec mbind option_bind threads world]. rewrite list_lookup_insert_ne by done.
    rewrite Hj. cbn [mbind option_bind accept_step]. by rewrite <- Hlw.
Qed.

End GateLiveness.

Section LockLiveness.
Context `{LlcpTransport T}.

(** C22. The mutex is always released (spec, section 9: "guaranteed
    release on all exit paths, including early-return failure paths"):
    in every interleaving that starts with the mutex free, the thread
    holding the mutex can always run, and its next stretch of code
    leaves the critical section and frees the mutex, whatever the
    transport answers; no thread keeps it across a blocking point. *)
Theorem mutex_holder_releases (s s' : Sys T) i :
  lock (world s) = None -> (forall j th, threads s !! j = Some th -> in_cs th = false) ->
  rtc sys_step s s' -> lock (world s') = Some i ->
  exists s'', sys_exec (EvThread i) s' = Some s'' /\ lock (world s'') = None /\
    forall th, threads s'' !! i = Some th -> in_cs th = false.
Proof.
  intros Hl Hout Hr Hi.
  destruct (lock_invs_reach s s' Hl Hout Hr) as [Hinv Hown].
  destruct (Hown i Hi) as [th Hth].
  assert (Hcs : in_cs th = true) by (apply (Hinv i th Hth), Hi).
  destruct s' as [ths w n m]. cbn [threads world] in *.
  cbn [sys_exec threads world]. rewrite Hth. cbn [mbind option_bind].
  destruct th as [e a [| c o wb | c o wb | c wb | r] | [h | h | b]]; cbn [in_cs] in Hcs;
    try discriminate; cbn [accept_step close_step mbind option_bind].
  - destruct (accept_call_releases e a c o wb w) as [H1 H2].
    destruct (accept_call c o wb w) as [pc' w'].
    eexists. split; [reflexivity|]. cbn [world threads]. split; [done|].
    intros th' Hth'. rewrite list_lookup_insert_eq in Hth' by (eapply lookup_lt_Some; eauto).
    by simplify_eq.
  - destruct (close_call_releases h w) as [H1 H2].
    destruct (close_call h w) as [pc' w'].
    eexists. split; [reflexivity|]. cbn [world threads]. split; [done|].
    intros th' Hth'. rewrite list_lookup_insert_eq in Hth' by (eapply lookup_lt_Some; eauto).
    by simplify_eq.
Qed.

End LockLiveness.

Local Open Scope Z_scope.

(** C9. The race on [hIncommingLlcpSocket] (spec, section 3: the object
    is populated with "the pending connection's handle"): [doAccept] passes
    the global handle to [phLibNfc_Llcp_Accept] at line 80, blocks at line
    95, and reads the global again at line 123. If a second connection
    (handle 9) is announced while the thread waits for the completion of
    the first (handle 7), the object it returns carries handle 9 although
    the connection the transport accepted, and opened, is 7. *)
Theorem hIncoming_race :
  exists s', rtc sys_step
      (mkSys [TAccept (mkEnv true true true false false) (mkArgs 128 1 1024) AccWaitListen]
             (initial_world 0 5 (SimTransport.mkState [] [] [] ∅)) 0 0) s' /\
    threads s' !! 0%nat =
      Some (TAccept (mkEnv true true true false false) (mkArgs 128 1 1024)
              (AccDone (Some (mkSocket 9 128 1)))) /\
    SimTransport.opened (tr (world s')) = {[7]}.
Proof.
  destruct (sys_run [EvIncoming 7; EvThread 0; EvThread 0; EvThread 0; EvIncoming 9;
                     EvLibnfc; EvThread 0]
              (mkSys [TAccept (mkEnv true true true false false) (mkArgs 128 1 1024) AccWaitListen]
                 (initial_world 0 5 (SimTransport.mkState [] [] [] ∅)) 0 0))
    as [s'|] eqn:E; [|vm_compute in E; discriminate].
  exists s'. split; [by eapply sys_run_sound|].
  vm_compute in E. injection E as <-. split; reflexivity.
Qed.

(** Witness of C10: two accept threads wait at an empty gate; one
    connection arrives and one of them passes. *)
Lemma gate_one_passage_per_signal_witness :
  match sys_run [EvIncoming 7; EvThread 0]
          (mkSys [TAccept (mkEnv true true true false false) (mkArgs 128 1 1024) AccWaitListen;
                  TAccept (mkEnv true true true false false) (mkArgs 128 1 1024) AccWaitListen]
             (initial_world 0 5 (SimTransport.mkState [] [] [] ∅)) 0 0) with
  | Some s' => (passed s' <= 0 + posted s')%nat
  | None => False
  end.
Proof.
  destruct (sys_run _ _) as [s'|] eqn:E; [|vm_compute in E; discriminate].
  eapply (gate_one_passage_per_signal 0
            (mkSys [TAccept (mkEnv true true true false false) (mkArgs 128 1 1024) AccWaitListen;
                    TAccept (mkEnv true true true false false) (mkArgs 128 1 1024) AccWaitListen]
               (initial_world 0 5 (SimTransport.mkState [] [] [] ∅)) 0 0));
    [reflexivity | by eapply sys_run_sound].
Defined.

(** Witness of C11: an accept thread and a close thread; the accept
    thread holds the mutex while the close thread has not started. *)
Lemma reentrance_mutual_exclusion_witness :
  match sys_run [EvIncoming 7; EvThread 0; EvThread 0]
          (mkSys [TAccept (mkEnv true true true false false) (mkArgs 128 1 1024) AccWaitListen;
                  TClose (CloseLock 5)]
             (initial_world 0 5 (SimTransport.mkState [] [] [] ∅)) 0 0) with
  | Some s' => lock_inv s' /\
      forall i j thi thj, threads s' !! i = Some thi -> threads s' !! j = Some thj ->
        in_cs thi = true -> in_cs thj = true -> i = j
  | None => False
  end.
Proof.
  destruct (sys_run _ _) as [s'|] eqn:E; [|vm_compute in E; discriminate].
  apply (reentrance_mutual_exclusion
           (mkSys [TAccept (mkEnv true true true false false) (mkArgs 128 1 1024) AccWaitListen;
                   TClose (CloseLock 5)]
              (initial_world 0 5 (SimTransport.mkState [] [] [] ∅)) 0 0));
    [reflexivity | | by eapply sys_run_sound].
  intros i th Hi. destruct i as [|[|i]]; cbn in Hi; simplify_eq; done.
Defined.

(** Two accept threads waiting at an empty gate, the transport idle. *)
Local Abbreviation two_accepts :=
  (mkSys [TAccept (mkEnv true true true false false) (mkArgs 128 1 1024) AccWaitListen;
          TAccept (mkEnv true true true false false) (mkArgs 128 1 1024) AccWaitListen]
         (initial_world 0 5 (SimTransport.mkState [] [] [] ∅)) 0 0).

(** Witness of C21: threads 0 and 1 wait at the empty gate; connection 7
    arrives. *)
Lemma gate_unblocks_one_witness :
  sys_exec (EvThread 0) two_accepts = None /\
  exists s1, sys_run [EvIncoming 7; EvThread 0] two_accepts = Some s1 /\
    passed s1 = S (passed two_accepts) /\ sys_exec (EvThread 1) s1 = None.
Proof.
  apply (gate_unblocks_one two_accepts 7 0 1 (mkEnv true true true false false)
           (mkArgs 128 1 1024) (mkEnv true true true false false) (mkArgs 128 1 1024));
    [reflexivity | reflexivity | reflexivity | discriminate].
Defined.

(** C23. Two arrivals before either accept reads the handle: the Listen
    Gate counts both, but [hIncommingLlcpSocket] keeps only the last, so
    both accept calls hand connection 9 to [phLibNfc_Llcp_Accept] and both
    wait at line 95 at once, while connection 7 is never accepted (spec,
    sections 3 and 4.1: one pending connection per signal, and one
    outstanding accept). *)
Theorem two_arrivals_one_handle :
  exists s', rtc sys_step two_accepts s' /\
    threads s' !! 0%nat = Some (TAccept (mkEnv true true true false false) (mkArgs 128 1 1024)
                                 (AccWaitCb 0 (mkData (Some 1%nat) 1280))) /\
    threads s' !! 1%nat = Some (TAccept (mkEnv true true true false false) (mkArgs 128 1 1024)
                                 (AccWaitCb 2 (mkData (Some 3%nat) 1280))) /\
    SimTransport.owed (tr (world s')) = [(0%nat, 9); (2%nat, 9)].
Proof.
  destruct (sys_run [EvIncoming 7; EvIncoming 9; EvThread 0; EvThread 0; EvThread 0;
                     EvThread 1; EvThread 1; EvThread 1] two_accepts)
    as [s'|] eqn:E; [|vm_compute in E; discriminate].
  exists s'. split; [by eapply sys_run_sound|].
  vm_compute in E. injection E as <-. split_and!; reflexivity.
Qed.

(** Witness of C22: thread 0 holds the mutex in the transport call. *)
Lemma mutex_holder_releases_witness :
  match sys_run [EvIncoming 7; EvThread 0; EvThread 0] two_accepts with
  | Some s' => exists s'', sys_exec (EvThread 0) s' = Some s'' /\ lock (world s'') = None /\
      forall th, threads s'' !! 0%nat = Some th -> in_cs th = false
  | None => False
  end.
Proof.
  destruct (sys_run _ two_accepts) as [s'|] eqn:E; [|vm_compute in E; discriminate].
  apply (mutex_holder_releases two_accepts s' 0); [reflexivity | | by eapply sys_run_sound |].
  - intros i th Hi. destruct i as [|[|i]]; cbn in Hi; simplify_eq; done.
  - vm_compute in E. injection E as <-. reflexivity.
Defined.
