(* ===== verification/Contexts.v ===== *)
(** * The completion contexts in every interleaving

    Each [doAccept] thread owns one completion context from line 64 to
    line 136, at the address of its frame. The spec (section 3) requires
    that one callback, and never more, sets the context's status and
    posts its semaphore. [ctx_inv] states what makes this true in every
    interleaving of [System]: the addresses of the contexts of the
    running threads are distinct and below [next_addr], every debt of
    libnfc names an address below [next_addr], and the context of each
    thread is in the state its program counter implies; at line 95 its
    semaphore's count plus the completions owed to it is at most one,
    and the count is positive only once a status was written.

    Every operation changes the contexts at one address only: its own,
    or the fresh one [next_addr]; [same_view] states that an address is
    untouched, and the effect lemmas of this file show it for each kind
    of step. On the invariant rest the theorems that a context is
    signalled at most once, that a thread whose accept libnfc abandoned
    ([abandoned_b]) waits forever, and that one whose completion is owed
    returns under a schedule. *)

From Stdlib Require Import Permutation.
From S2P Require Import Prelude Jni Semaphore Transport State Accept AcceptFacts Termination.
From S2P Require Import Close System.

(** The context a thread owns at a program point. *)
Definition pc_ctx (pc : accept_pc) : option nat :=
  match pc with
  | AccLock c _ _ | AccCall c _ _ | AccWaitCb c _ => Some c
  | _ => None
  end.

Definition thread_ctx (th : thread) : option nat :=
  match th with
  | TAccept _ _ pc => pc_ctx pc
  | TClose _ => None
  end.

Section Views.
Context `{LlcpTransport T}.

(** The completions libnfc owes to the context at [c]. *)
Definition owed_count (c : nat) (t : T) : nat := count_occ Nat.eq_dec (llcp_owed t) c.

(** An address whose context, frame and debts a step leaves unchanged. *)
Definition same_view (w w' : World T) (c : nat) : Prop :=
  ctxs w' !! c = ctxs w !! c /\ (c ∈ frames w' <-> c ∈ frames w) /\
  owed_count c (tr w') = owed_count c (tr w).

(** The state of a thread's context at each program point. *)
Definition ctx_ok (w : World T) (pc : accept_pc) : Prop :=
  match pc with
  | AccLock c _ _ | AccCall c _ _ =>
      ctxs w !! c = Some (mkCb None (Sem.sem_init 0)) /\ c ∈ frames w /\
      owed_count c (tr w) = 0
  | AccWaitCb c _ =>
      c ∈ frames w /\ exists cb, ctxs w !! c = Some cb /\
        Sem.value (sem cb) + owed_count c (tr w) <= 1 /\
        (status cb = None -> Sem.value (sem cb) = 0)
  | _ => True
  end.

Definition ctx_inv (s : Sys T) : Prop :=
  (forall c, c ∈ llcp_owed (tr (world s)) -> c < next_addr (world s)) /\
  (forall i th c, threads s !! i = Some th -> thread_ctx th = Some c ->
     c < next_addr (world s)) /\
  (forall i j thi thj c, threads s !! i = Some thi -> threads s !! j = Some thj ->
     thread_ctx thi = Some c -> thread_ctx thj = Some c -> i = j) /\
  (forall i e a pc, threads s !! i = Some (TAccept e a pc) -> ctx_ok (world s) pc).

(** A process where no [doAccept] owns a context yet and every debt of
    libnfc names an address already used: the process before any accept
    runs, for instance. *)
Definition sys_init_b (s : Sys T) : bool :=
  forallb (fun th => bool_decide (thread_ctx th = None)) (threads s) &&
  forallb (fun x => bool_decide (x < next_addr (world s))) (llcp_owed (tr (world s))).

(** A context whose accept libnfc abandoned: its semaphore was never
    posted and no completion is owed to it any more. *)
Definition abandoned_b (c : nat) (s : Sys T) : bool :=
  match ctxs (world s) !! c with
  | Some cb => bool_decide (Sem.value (sem cb) = 0) &&
               bool_decide (owed_count c (tr (world s)) = 0)
  | None => false
  end.

End Views.

(** Lookups at an address other than the one an operation updates. *)
Ltac lookup_ne :=
  repeat first [rewrite lookup_delete_ne by congruence
               | rewrite lookup_insert_ne by congruence]; done.

(** The debts after a call of the transport, from its laws. *)
Ltac owed_by_laws :=
  unfold owed_count;
  match goal with
  | Hacc : phLibNfc_Llcp_Accept _ _ _ _ _ = (NFCSTATUS_PENDING, _) |- _ =>
      rewrite ((proj1 (Permutation_count_occ _ _ _)) (accept_pending_owes _ _ _ _ _ _ Hacc));
      cbn [count_occ]; case_match; congruence
  | Hacc : phLibNfc_Llcp_Accept _ _ _ _ _ = (?r, _), Hne : ?r <> NFCSTATUS_PENDING |- _ =>
      by rewrite (accept_other_owes_nothing _ _ _ _ _ _ _ Hacc Hne)
  | Hcl : phLibNfc_Llcp_Close _ _ = _ |- _ =>
      by rewrite (close_owes_nothing _ _ _ _ Hcl)
  end.

Section ContextFacts.
Context `{LlcpTransportLaws T}.

Lemma owed_count_cons c x (t t' : T) :
  llcp_owed t' ≡ₚ x :: llcp_owed t ->
  owed_count c t' = (if decide (x = c) then 1 else 0) + owed_count c t.
Proof.
  intros Hp. unfold owed_count. rewrite ((proj1 (Permutation_count_occ _ _ _)) Hp c).
  cbn [count_occ]. destruct (Nat.eq_dec x c); case_decide; done.
Qed.

Lemma ctx_ok_view (w w' : World T) pc :
  (forall c, pc_ctx pc = Some c -> same_view w w' c) -> ctx_ok w pc -> ctx_ok w' pc.
Proof.
  destruct pc; cbn [ctx_ok pc_ctx]; intros Hv Hok; try done;
    destruct (Hv c eq_refl) as (Hc & Hf & Ho); rewrite Hc, Ho, Hf; done.
Qed.

Lemma accept_step_effect e i a pc (w : World T) pc' w' :
  accept_step e i a pc w = Some (pc', w') ->
  next_addr w <= next_addr w' /\
  (forall c, c <> next_addr w -> pc_ctx pc <> Some c -> same_view w w' c).
Proof.
  destruct pc; cbn [accept_step]; unfold REENTRANCE_LOCK;
    [destruct (listen_sem w) as [[|k]] eqn:Hl; cbn [Sem.sem_trywait Sem.value mbind option_bind];
       [done|] | .. ]; intros Hs; unfold_ops.
  all: split; [wsimpl; lia|]; intros c' Hc' Hpc; unfold same_view; wsimpl; cbn [pc_ctx] in *.
  all: split_and!; [lookup_ne | set_solver | try done; owed_by_laws].
Qed.

(** The debts a thread's step adds are owed to its own context. *)
Lemma accept_step_owed e i a pc (w : World T) pc' w' x :
  accept_step e i a pc w = Some (pc', w') ->
  x ∈ llcp_owed (tr w') -> x ∈ llcp_owed (tr w) \/ pc_ctx pc = Some x.
Proof.
  destruct pc; cbn [accept_step]; unfold REENTRANCE_LOCK;
    [destruct (listen_sem w) as [[|k]] eqn:Hl; cbn [Sem.sem_trywait Sem.value mbind option_bind];
       [done|] | .. ]; intros Hs; unfold_ops; intros Hx; auto.
  all: match goal with Hacc : phLibNfc_Llcp_Accept _ _ _ _ _ = _ |- _ =>
         first [rewrite (accept_pending_owes _ _ _ _ _ _ Hacc) in Hx;
                apply elem_of_cons in Hx as [->|]; auto
               | rewrite (accept_other_owes_nothing _ _ _ _ _ _ _ Hacc) in Hx; auto] end.
Qed.

(** A thread's step keeps its own context in the state its next program
    point implies; the context it then owns is its old one or the fresh
    address. *)
Lemma accept_step_own e i a pc (w : World T) pc' w' :
  accept_step e i a pc w = Some (pc', w') ->
  (pc = AccWaitListen -> owed_count (next_addr w) (tr w) = 0) ->
  ctx_ok w pc ->
  ctx_ok w' pc' /\
  (pc_ctx pc' = None \/ pc_ctx pc' = pc_ctx pc \/
   (pc_ctx pc' = Some (next_addr w) /\ next_addr w < next_addr w')).
Proof.
  intros Hs Hfresh. revert Hs.
  destruct pc; cbn [accept_step]; unfold REENTRANCE_LOCK;
    [destruct (listen_sem w) as [[|k]] eqn:Hl; cbn [Sem.sem_trywait Sem.value mbind option_bind];
       [done|] | .. ]; intros Hs; try specialize (Hfresh eq_refl);
    unfold_ops; cbn [ctx_ok pc_ctx]; intros Hok; wsimpl.
  all: split; [| first [left; done | right; left; done | right; right; split; [done | lia]]].
  all: try done.
  - split_and!; [by rewrite lookup_insert_eq | set_solver | done].
  - split_and!; [by rewrite lookup_insert_eq | set_solver | done].
  - destruct Hok as (Hc & Hf & Ho). split; [done|]. eexists. split; [exact Hc|].
    erewrite owed_count_cons by (eapply accept_pending_owes; eassumption).
    rewrite decide_True, Ho by done. cbn. lia.
Qed.

Lemma accept_interrupt_effect pc (w : World T) pc' w' :
  accept_interrupt pc w = Some (pc', w') ->
  next_addr w' = next_addr w /\ tr w' = tr w /\ pc_ctx pc' = None /\
  (forall c, pc_ctx pc <> Some c -> same_view w w' c).
Proof.
  destruct pc; cbn [accept_interrupt]; intros Hs; unfold_ops; cbn [pc_ctx];
    (split_and!; [done | done | done |]); intros c' Hpc; unfold same_view; wsimpl;
    (split_and!; [lookup_ne | set_solver | done]).
Qed.

Lemma close_step_effect i pc (w : World T) pc' w' :
  close_step i pc w = Some (pc', w') ->
  next_addr w' = next_addr w /\ llcp_owed (tr w') = llcp_owed (tr w) /\
  ctxs w' = ctxs w /\ frames w' = frames w.
Proof.
  destruct pc; cbn [close_step]; unfold REENTRANCE_LOCK; intros Hs; unfold_ops;
    split_and!; try done;
    match goal with Hcl : phLibNfc_Llcp_Close _ _ = _ |- _ =>
      by rewrite (close_owes_nothing _ _ _ _ Hcl) end.
Qed.

(** A completion pays the debt of one context [c'] and signals it if its
    frame is live; nothing else of the contexts changes. *)
Lemma transport_complete_effect (w w' : World T) :
  transport_complete w = Some w' ->
  exists c' st, llcp_owed (tr w) ≡ₚ c' :: llcp_owed (tr w') /\
    next_addr w' = next_addr w /\ frames w' = frames w /\
    (forall c, c <> c' -> ctxs w' !! c = ctxs w !! c) /\
    (forall cb, ctxs w !! c' = Some cb -> c' ∈ frames w ->
       ctxs w' !! c' = Some (mkCb (Some st) (Sem.sem_post (sem cb)))).
Proof.
  unfold transport_complete. destruct (llcp_complete (tr w)) as [[[c' st] t']|] eqn:Hc;
    intros Hs; simplify_eq.
  exists c', st. pose proof (complete_pays _ _ _ _ Hc) as Hp.
  unfold nfc_jni_llcp_accept_socket_callback. wsimpl.
  destruct (ctxs w !! c') as [cb|] eqn:Hcb; [destruct (decide (c' ∈ frames w)) as [Hf|Hf]|];
    wsimpl; (split_and!; [done | done | done | intros; lookup_ne |]);
    intros cb' Hcb' Hf'; simplify_eq; [by rewrite lookup_insert_eq | done].
Qed.

(** An abandoned accept pays the debt of one context and changes
    nothing else of the world but the transport. *)
Lemma transport_fail_effect (w w' : World T) :
  transport_fail w = Some w' ->
  exists c', llcp_owed (tr w) ≡ₚ c' :: llcp_owed (tr w') /\
    next_addr w' = next_addr w /\ frames w' = frames w /\ ctxs w' = ctxs w.
Proof.
  unfold transport_fail, nfc_jni_llcp_transport_socket_err_callback.
  destruct (llcp_fail (tr w)) as [[[c' code] t']|] eqn:Hc; intros Hs; simplify_eq.
  exists c'. wsimpl. split_and!; [by eapply fail_pays | done..].
Qed.

(** ** Preservation of [ctx_inv] *)

(** A thread [i] takes a step: the world changes only at its context
    and at the fresh address, and the context it then owns is its old
    one, the fresh one or none. *)
Lemma ctx_inv_replace ths (w w' : World T) n m n' m' i th th' :
  ths !! i = Some th -> ctx_inv (mkSys ths w n m) ->
  next_addr w <= next_addr w' ->
  (forall x, x ∈ llcp_owed (tr w') -> x ∈ llcp_owed (tr w) \/ thread_ctx th = Some x) ->
  (forall c, c <> next_addr w -> thread_ctx th <> Some c -> same_view w w' c) ->
  (thread_ctx th' = None \/ thread_ctx th' = thread_ctx th \/
   (thread_ctx th' = Some (next_addr w) /\ next_addr w < next_addr w')) ->
  (forall e a pc', th' = TAccept e a pc' -> ctx_ok w' pc') ->
  ctx_inv (mkSys (<[i := th']> ths) w' n' m').
Proof.
  intros Hi (Hown & Hlt & Hdist & Hok) Hna Howed Hview Hnew Hok'.
  cbn [threads world] in Hown, Hlt, Hdist, Hok.
  (* the context of the new thread is no other thread's *)
  assert (Hother : forall j thj c, j <> i -> ths !! j = Some thj ->
            thread_ctx thj = Some c -> thread_ctx th' = Some c -> False).
  { intros j thj c Hne Hj Hcj Hc.
    destruct Hnew as [Hn|[Hn|[Hn _]]]; rewrite Hn in Hc; [done | |].
    - by apply Hne, (Hdist j i thj th c).
    - simplify_eq. pose proof (Hlt j thj _ Hj Hcj). lia. }
  unfold ctx_inv; cbn [threads world]. split_and!.
  - intros x Hx. destruct (Howed x Hx) as [Hx'|Hx'];
      [pose proof (Hown x Hx') | pose proof (Hlt i th x Hi Hx')]; lia.
  - intros j thj c Hj Hc. apply list_lookup_insert_Some in Hj as [(<- & <- & _)|[_ Hj]];
      [|pose proof (Hlt j thj c Hj Hc); lia].
    destruct Hnew as [Hn|[Hn|[Hn ?]]]; rewrite Hn in Hc; [done | |simplify_eq; lia].
    pose proof (Hlt i th c Hi Hc). lia.
  - intros j k thj thk c Hj Hk Hcj Hck.
    apply list_lookup_insert_Some in Hj as [(<- & <- & _)|[Hij Hj]];
      apply list_lookup_insert_Some in Hk as [(<- & <- & _)|[Hik Hk]]; [done | ..].
    + exfalso. by apply (Hother k thk c).
    + exfalso. by apply (Hother j thj c).
    + by apply (Hdist j k thj thk c).
  - intros j e a pc Hj. apply list_lookup_insert_Some in Hj as [(<- & -> & _)|[Hij Hj]];
      [by apply (Hok' e a pc)|].
    apply (ctx_ok_view w); [|by eapply Hok]. intros c Hc.
    pose proof (Hlt j _ c Hj Hc) as Hlt'.
    apply Hview; [lia|]. intros Hc'. by apply Hij, (Hdist i j th (TAccept e a pc) c).
Qed.

(** A step of libnfc or an arrival: the threads stay, the fresh
    address stays, no debt appears, and every thread's context stays in
    its state. *)
Lemma ctx_inv_world ths (w w' : World T) n m n' m' :
  ctx_inv (mkSys ths w n m) -> next_addr w' = next_addr w ->
  (forall x, x ∈ llcp_owed (tr w') -> x ∈ llcp_owed (tr w)) ->
  (forall i e a pc, ths !! i = Some (TAccept e a pc) -> ctx_ok w pc -> ctx_ok w' pc) ->
  ctx_inv (mkSys ths w' n' m').
Proof.
  intros (Hown & Hlt & Hdist & Hok) Hna Howed Hok'.
  unfold ctx_inv; cbn [threads world] in *. rewrite Hna. split_and!; eauto.
Qed.

Lemma ctx_ok_none (w : World T) pc : pc_ctx pc = None -> ctx_ok w pc.
Proof. by destruct pc. Qed.

(** A context libnfc owes a completion to is one that waits at line 95. *)
Lemma owed_count_pos c (t : T) : c ∈ llcp_owed t -> owed_count c t <> 0.
Proof.
  unfold owed_count. intros Hc. apply list_elem_of_In, (count_occ_In Nat.eq_dec) in Hc. lia.
Qed.

Lemma owed_count_fresh c (t : T) : (forall x, x ∈ llcp_owed t -> x < c) -> owed_count c t = 0.
Proof.
  intros Hlt. unfold owed_count. apply count_occ_not_In. intros Hin.
  apply list_elem_of_In, Hlt in Hin. lia.
Qed.

(** A completion keeps every thread's context in its state: the one it
    signals was waiting at line 95 with its debt owed, and is now
    signalled with its status written. *)
Lemma ctx_ok_complete (w w' : World T) pc :
  transport_complete w = Some w' -> ctx_ok w pc -> ctx_ok w' pc.
Proof.
  intros Hs Hok. destruct (transport_complete_effect _ _ Hs) as (c' & st & Hp & _ & Hf & Hctx & Hsig).
  pose proof (fun c => owed_count_cons c c' _ _ Hp) as Hcnt.
  pose proof (owed_count_pos c' (tr w)) as Hpos.
  rewrite Hp in Hpos. specialize (Hpos (proj2 (elem_of_cons _ _ _) (or_introl eq_refl))).
  destruct (decide (pc_ctx pc = Some c')) as [Hc|Hc].
  - destruct pc; cbn [pc_ctx ctx_ok] in *; simplify_eq; try done.
    + destruct Hok as (_ & _ & Ho). specialize (Hcnt c'). rewrite decide_True in Hcnt; lia.
    + destruct Hok as (_ & _ & Ho). specialize (Hcnt c'). rewrite decide_True in Hcnt; lia.
    + destruct Hok as (Hfr & cb & Hcb & Hle & Hst). specialize (Hcnt c').
      rewrite decide_True in Hcnt by done.
      split; [by rewrite Hf|]. eexists. split; [by apply Hsig|]. cbn [sem status].
      destruct (sem cb) as [v]. cbn in *. split; [lia | done].
  - apply (ctx_ok_view w); [|done]. intros c Hpc.
    split_and!; [apply Hctx; congruence | by rewrite Hf |].
    rewrite (Hcnt c), decide_False by congruence. done.
Qed.

(** An abandoned accept only removes a debt. *)
Lemma ctx_ok_fail (w w' : World T) pc :
  transport_fail w = Some w' -> ctx_ok w pc -> ctx_ok w' pc.
Proof.
  intros Hs Hok. destruct (transport_fail_effect _ _ Hs) as (c' & Hp & _ & Hf & Hctx).
  pose proof (fun c => owed_count_cons c c' _ _ Hp) as Hcnt.
  destruct pc; cbn [ctx_ok] in *; rewrite ?Hf, ?Hctx; try done.
  - specialize (Hcnt c). destruct Hok as (? & ? & ?). split_and!; [done | done | lia].
  - specialize (Hcnt c). destruct Hok as (? & ? & ?). split_and!; [done | done | lia].
  - specialize (Hcnt c). destruct Hok as (? & cb & ? & ? & ?).
    split; [done|]. exists cb. split_and!; [done | lia | done].
Qed.

Lemma ctx_inv_step (s s' : Sys T) : ctx_inv s -> sys_step s s' -> ctx_inv s'.
Proof.
  intros Hinv Hs.
  destruct Hs as [i e a pc pc' w' ths w n m Hth Hst|i e a pc pc' w' ths w n m Hth _ _ Hint
                 |i pc pc' w' ths w n m Hth Hcl|w' ths w n m Hc|w' ths w n m Hc|h ths w n m].
  - pose proof Hinv as (Hown & Hlt & _ & Hok). cbn [threads world] in *.
    destruct (accept_step_effect _ _ _ _ _ _ _ Hst) as [Hna Hview].
    destruct (accept_step_own _ _ _ _ _ _ _ Hst) as [Hok' Hnew];
      [intros ->; by apply owed_count_fresh | by eapply Hok |].
    eapply ctx_inv_replace; [exact Hth | exact Hinv | exact Hna | | exact Hview | exact Hnew |].
    + intros x Hx. by eapply accept_step_owed.
    + by intros ??? [= <- <- <-].
  - destruct (accept_interrupt_effect _ _ _ _ Hint) as (Hna & Htr & Hnone & Hview).
    eapply ctx_inv_replace; [exact Hth | exact Hinv | lia | | | by left |].
    + rewrite Htr. auto.
    + intros c _. apply Hview.
    + intros ??? [= <- <- <-]. by apply ctx_ok_none.
  - destruct (close_step_effect _ _ _ _ _ Hcl) as (Hna & Ho & Hctx & Hf).
    eapply (ctx_inv_replace _ _ _ _ _ _ _ _ (TClose pc));
      [exact Hth | exact Hinv | lia | rewrite Ho; auto | | by left | done].
    intros c _ _. unfold same_view, owed_count. by rewrite Hctx, Hf, Ho.
  - destruct (transport_complete_effect _ _ Hc) as (c' & st & Hp & Hna & _).
    eapply ctx_inv_world; [exact Hinv | exact Hna | |].
    + intros x Hx. rewrite Hp. by apply elem_of_cons; right.
    + intros. by eapply ctx_ok_complete.
  - destruct (transport_fail_effect _ _ Hc) as (c' & Hp & Hna & _).
    eapply ctx_inv_world; [exact Hinv | exact Hna | |].
    + intros x Hx. rewrite Hp. by apply elem_of_cons; right.
    + intros. by eapply ctx_ok_fail.
  - eapply ctx_inv_world; [exact Hinv | done | done |].
    intros i e a pc _. apply ctx_ok_view. intros c _. done.
Qed.

Lemma ctx_inv_init (s : Sys T) : sys_init_b s = true -> ctx_inv s.
Proof.
  unfold sys_init_b. intros [Hth Ho]%andb_prop.
  rewrite forallb_forall in Hth, Ho.
  assert (Hnone : forall i th, threads s !! i = Some th -> thread_ctx th = None).
  { intros i th Hi. specialize (Hth th). apply bool_decide_eq_true in Hth; [done|].
    apply list_elem_of_In. by eapply list_elem_of_lookup_2. }
  split_and!.
  - intros x Hx. specialize (Ho x). apply bool_decide_eq_true in Ho; [done|].
    by apply list_elem_of_In.
  - intros i th c Hi Hc. by rewrite (Hnone i th Hi) in Hc.
  - intros i j thi thj c Hi _ Hc _. by rewrite (Hnone i thi Hi) in Hc.
  - intros i e a pc Hi. apply ctx_ok_none, (Hnone i _ Hi).
Qed.

Lemma ctx_inv_reach (s s' : Sys T) : sys_init_b s = true -> rtc sys_step s s' -> ctx_inv s'.
Proof. intros Hi Hr. apply (rtc_preserved _ _ ctx_inv_step _ _ Hr), ctx_inv_init, Hi. Qed.

Lemma abandoned_b_spec c (s : Sys T) :
  abandoned_b c s = true <->
  (exists cb, ctxs (world s) !! c = Some cb /\ Sem.value (sem cb) = 0) /\
  owed_count c (tr (world s)) = 0.
Proof.
  unfold abandoned_b. destruct (ctxs (world s) !! c) as [cb|].
  - rewrite andb_true_iff, !bool_decide_eq_true. naive_solver.
  - naive_solver.
Qed.

(** A step of anything but the waiting thread itself leaves an
    abandoned context abandoned; the thread cannot step. *)
Lemma abandoned_step i e a c wb (s s' : Sys T) :
  ctx_inv s -> threads s !! i = Some (TAccept e a (AccWaitCb c wb)) ->
  interrupted e = false -> abandoned_b c s = true -> sys_step s s' ->
  threads s' !! i = Some (TAccept e a (AccWaitCb c wb)) /\ abandoned_b c s' = true.
Proof.
  rewrite abandoned_b_spec.
  intros (Hown & Hlt & Hdist & Hok) Hi Hint ((cb & Hcb & Hv) & Hcnt) Hs.
  pose proof (Hlt i _ c Hi eq_refl) as Hfresh.
  assert (Hmine : forall j e' a' pc, threads s !! j = Some (TAccept e' a' pc) ->
            pc_ctx pc = Some c -> j = i).
  { intros j e' a' pc Hj Hc. by apply (Hdist j i _ _ c Hj Hi). }
  destruct Hs as [j e' a' pc pc' w' ths w n m Hth Hst|j e' a' pc pc' w' ths w n m Hth Hst Hint' Hi'
                 |j pc pc' w' ths w n m Hth Hcl|w' ths w n m Hc|w' ths w n m Hc|h ths w n m];
    cbn [threads world] in *.
  - destruct (decide (j = i)) as [->|Hne].
    + rewrite Hi in Hth. simplify_eq. by rewrite (accept_step_blocked _ _ _ _ _ _ cb) in Hst.
    + rewrite list_lookup_insert_ne by done. split; [done|]. apply abandoned_b_spec; cbn [world].
      destruct (accept_step_effect _ _ _ _ _ _ _ Hst) as [_ Hview].
      destruct (Hview c) as (Hc' & _ & Ho'); [lia | intros Hc; by apply Hne, (Hmine j e' a' pc) |].
      rewrite Hc', Ho'. eauto.
  - destruct (decide (j = i)) as [->|Hne]; [rewrite Hi in Hth; simplify_eq; congruence|].
    rewrite list_lookup_insert_ne by done. split; [done|]. apply abandoned_b_spec; cbn [world].
    destruct (accept_interrupt_effect _ _ _ _ Hi') as (_ & _ & _ & Hview).
    destruct (Hview c) as (Hc' & _ & Ho'); [intros Hc; by apply Hne, (Hmine j e' a' pc)|].
    rewrite Hc', Ho'. eauto.
  - rewrite list_lookup_insert_ne by (intros ->; congruence). split; [done|]. apply abandoned_b_spec; cbn [world].
    destruct (close_step_effect _ _ _ _ _ Hcl) as (_ & Ho & Hctx & _).
    unfold owed_count in *. rewrite Hctx, Ho. eauto.
  - split; [done|]. apply abandoned_b_spec; cbn [world].
    destruct (transport_complete_effect _ _ Hc) as (c' & st & Hp & _ & _ & Hctx & _).
    pose proof (owed_count_cons c c' _ _ Hp) as Hcc.
    case_decide as Hne; [lia|]. rewrite Hctx by done. split; [eauto | lia].
  - split; [done|]. apply abandoned_b_spec; cbn [world].
    destruct (transport_fail_effect _ _ Hc) as (c' & Hp & _ & _ & Hctx).
    pose proof (owed_count_cons c c' _ _ Hp) as Hcc. rewrite Hctx. split; [eauto | lia].
  - split; [done|]. apply abandoned_b_spec; cbn [world]. eauto.
Qed.

(** A thread waiting at line 95 whose context is signalled, or owed a
    completion, returns in the schedule where libnfc delivers
    completions until the thread's own, and the thread then runs. *)
Lemma wait_schedule n i e a c wb cb (s : Sys T) :
  List.length (llcp_owed (tr (world s))) <= n ->
  threads s !! i = Some (TAccept e a (AccWaitCb c wb)) ->
  ctxs (world s) !! c = Some cb -> c ∈ frames (world s) ->
  Sem.value (sem cb) <> 0 \/ c ∈ llcp_owed (tr (world s)) ->
  exists evs s', sys_run evs s = Some s' /\
    exists r, threads s' !! i = Some (TAccept e a (AccDone r)).
Proof.
  revert s cb. induction n as [|n IH]; intros s cb Hlen Hi Hc Hf Hsig;
    destruct (Sem.value (sem cb)) as [|k] eqn:Hk.
  2,4: exists [EvThread i]; cbn [sys_run sys_exec]; rewrite Hi; cbn [mbind option_bind];
       rewrite (accept_step_wake _ _ _ _ _ _ cb k) by done; cbn [mbind option_bind];
       match goal with |- context [accept_wake ?e0 ?a0 ?c0 ?x] =>
         destruct (accept_wake_clean e0 a0 c0 x) as [r ->] end;
       unfold clean_and_return; cbn [fst snd mbind option_bind];
       eexists; split; [reflexivity|]; exists r; cbn [threads];
       rewrite list_lookup_insert_eq; [done | by eapply lookup_lt_Some].
  all: destruct Hsig as [|Ho]; [done|].
  - destruct (llcp_owed (tr (world s))); [by apply not_elem_of_nil in Ho | cbn in Hlen; lia].
  - destruct (transport_complete_wait c cb (world s)) as (w' & Hw' & Hl' & Hf' & Hcase);
      [done..|].
    destruct (IH (mkSys (threads s) w' (posted s) (passed s))
                 (match ctxs w' !! c with Some cb' => cb' | None => cb end))
      as (evs & s' & Hrun & Hdone); cbn [threads world];
      [lia | done | destruct Hcase as [[st ->]|[-> _]]; done | by rewrite Hf' | |].
    + destruct Hcase as [[st ->]|[-> Ho']]; [left | by right].
      cbn [sem]. destruct (sem cb). cbn. lia.
    + exists (EvLibnfc :: evs), s'. cbn [sys_run sys_exec]. rewrite Hw'. by split.
Qed.

Lemma not_abandoned c cb (s : Sys T) :
  ctxs (world s) !! c = Some cb -> abandoned_b c s = false ->
  Sem.value (sem cb) <> 0 \/ c ∈ llcp_owed (tr (world s)).
Proof.
  unfold abandoned_b. intros -> Hab.
  destruct (decide (Sem.value (sem cb) = 0)) as [Hv|]; [right|by left].
  rewrite bool_decide_true, andb_true_l in Hab by done.
  apply bool_decide_eq_false in Hab. unfold owed_count in Hab.
  apply list_elem_of_In, (count_occ_In Nat.eq_dec). lia.
Qed.

End ContextFacts.

Section ContextTheorems.
Context `{LlcpTransportLaws T}.

(** C18. One signal per completion context (spec, section 3: "never
    more than once"), in every interleaving of any number of [doAccept]
    and [doClose] threads with libnfc's completions and abandoned
    accepts and with arrivals, from a process where no accept owns a
    context yet: a thread waiting at line 95 is the only thread owning
    its context, the context is live, its semaphore's count plus the
    completions libnfc still owes it is at most one, and the count is
    positive only once the callback wrote the status. *)
Theorem completion_signalled_at_most_once (s s' : Sys T) :
  sys_init_b s = true -> rtc sys_step s s' ->
  forall i e a c wb, threads s' !! i = Some (TAccept e a (AccWaitCb c wb)) ->
  (forall j th, threads s' !! j = Some th -> thread_ctx th = Some c -> j = i) /\
  exists cb, ctxs (world s') !! c = Some cb /\
    Sem.value (sem cb) + owed_count c (tr (world s')) <= 1 /\
    (status cb = None -> Sem.value (sem cb) = 0).
Proof.
  intros Hinit Hr i e a c wb Hth.
  destruct (ctx_inv_reach _ _ Hinit Hr) as (_ & _ & Hdist & Hok).
  split; [intros j th Hj Hc; by apply (Hdist j i th (TAccept e a (AccWaitCb c wb)) c)|].
  by destruct (Hok i e a _ Hth) as [_ ?].
Qed.

(** C19. Departure from the spec (sections 4.2 and 6: the error
    callback is the other outcome of a pending accept, and the accept
    then fails): [doAccept] waits at line 95 on [cb_data.sem], which only
    the accept callback posts; the error callback passed at line 83 does
    not. Once libnfc abandons the accept, the waiting thread, unless a
    signal interrupts it, stays at line 95 in every continuation of the
    process: it never returns. *)
Theorem accept_error_blocks_forever (s0 s s' : Sys T) i e a c wb :
  sys_init_b s0 = true -> rtc sys_step s0 s ->
  threads s !! i = Some (TAccept e a (AccWaitCb c wb)) -> interrupted e = false ->
  abandoned_b c s = true -> rtc sys_step s s' ->
  threads s' !! i = Some (TAccept e a (AccWaitCb c wb)).
Proof.
  intros Hinit Hr0 Hth Hint Hab Hr.
  enough (ctx_inv s' /\ threads s' !! i = Some (TAccept e a (AccWaitCb c wb)) /\
          abandoned_b c s' = true) by tauto.
  refine (rtc_preserved _ (fun x => ctx_inv x /\
           threads x !! i = Some (TAccept e a (AccWaitCb c wb)) /\ abandoned_b c x = true)
           _ _ _ Hr _); [|split_and!; [by eapply ctx_inv_reach | done | done]].
  intros x y (Hinv & Hx & Habx) Hs.
  split; [by eapply ctx_inv_step|]. by eapply abandoned_step.
Qed.

(** C20. Liveness of the completion wait: a thread waiting at line 95
    whose accept libnfc did not abandon returns under a schedule: libnfc
    delivers its owed completions until this thread's, then the thread
    runs; the spec's transport (section 4.2) delivers each owed
    completion eventually. *)
Theorem accept_wait_completes (s0 s : Sys T) i e a c wb :
  sys_init_b s0 = true -> rtc sys_step s0 s ->
  threads s !! i = Some (TAccept e a (AccWaitCb c wb)) -> abandoned_b c s = false ->
  exists evs s', sys_run evs s = Some s' /\
    exists r, threads s' !! i = Some (TAccept e a (AccDone r)).
Proof.
  intros Hinit Hr Hth Hab.
  destruct (ctx_inv_reach _ _ Hinit Hr) as (_ & _ & _ & Hok).
  destruct (Hok i e a _ Hth) as (Hf & cb & Hcb & _).
  eapply (wait_schedule _ i e a c wb cb); [done | done | done | done |].
  by eapply not_abandoned.
Qed.

End ContextTheorems.

Local Open Scope Z_scope.

(** Two accept threads waiting at an empty gate, the transport idle. *)
Local Abbreviation two_accepts :=
  (mkSys [TAccept (mkEnv true true true false false) (mkArgs 128 1 1024) AccWaitListen;
          TAccept (mkEnv true true true false false) (mkArgs 128 1 1024) AccWaitListen]
         (initial_world 0 5 (SimTransport.mkState [] [] [] ∅)) 0 0).

(** Witness of C18: a connection arrives and thread 0 runs to the wait
    of line 95 with context 0. *)
Lemma completion_signalled_at_most_once_witness :
  match sys_run [EvIncoming 7; EvThread 0; EvThread 0; EvThread 0] two_accepts with
  | Some s' =>
      (forall j th, threads s' !! j = Some th -> thread_ctx th = Some 0%nat -> j = 0%nat) /\
      exists cb, ctxs (world s') !! 0%nat = Some cb /\
        (Sem.value (sem cb) + owed_count 0 (tr (world s')) <= 1)%nat /\
        (status cb = None -> Sem.value (sem cb) = 0%nat)
  | None => False
  end.
Proof.
  destruct (sys_run _ two_accepts) as [s'|] eqn:E; [|vm_compute in E; discriminate].
  assert (Hinit : sys_init_b two_accepts = true) by (vm_compute; reflexivity).
  apply (completion_signalled_at_most_once two_accepts s' Hinit (sys_run_sound _ _ _ E)
           0 (mkEnv true true true false false) (mkArgs 128 1 1024) 0 (mkData (Some 1%nat) 1280)).
  vm_compute in E. injection E as <-. reflexivity.
Defined.

(** Witness of C19: thread 0 waits with context 0 when libnfc abandons
    its accept; a second connection arrives and thread 1 accepts it to
    the end, and thread 0 still waits. *)
Lemma accept_error_blocks_forever_witness :
  match sys_run [EvIncoming 7; EvThread 0; EvThread 0; EvThread 0; EvLibfail] two_accepts with
  | Some s =>
      match sys_run [EvIncoming 9; EvThread 1; EvThread 1; EvThread 1; EvLibnfc; EvThread 1] s with
      | Some s' => threads s' !! 0%nat =
          Some (TAccept (mkEnv true true true false false) (mkArgs 128 1 1024)
                  (AccWaitCb 0 (mkData (Some 1%nat) 1280)))
      | None => False
      end
  | None => False
  end.
Proof.
  destruct (sys_run _ two_accepts) as [s|] eqn:E; [|vm_compute in E; discriminate].
  assert (Hinit : sys_init_b two_accepts = true) by (vm_compute; reflexivity).
  pose proof (sys_run_sound _ _ _ E) as Hr0. vm_compute in E. injection E as <-.
  destruct (sys_run _ _) as [s'|] eqn:E'; [|vm_compute in E'; discriminate].
  apply (accept_error_blocks_forever two_accepts _ s' 0 (mkEnv true true true false false)
           (mkArgs 128 1 1024) 0 (mkData (Some 1%nat) 1280) Hinit Hr0);
    [reflexivity | reflexivity | reflexivity | exact (sys_run_sound _ _ _ E')].
Defined.

(** Witness of C20: thread 0 waits at line 95 with its completion owed. *)
Lemma accept_wait_completes_witness :
  match sys_run [EvIncoming 7; EvThread 0; EvThread 0; EvThread 0] two_accepts with
  | Some s => exists evs s', sys_run evs s = Some s' /\
      exists r, threads s' !! 0%nat =
        Some (TAccept (mkEnv true true true false false) (mkArgs 128 1 1024) (AccDone r))
  | None => False
  end.
Proof.
  destruct (sys_run _ two_accepts) as [s|] eqn:E; [|vm_compute in E; discriminate].
  assert (Hinit : sys_init_b two_accepts = true) by (vm_compute; reflexivity).
  apply (accept_wait_completes two_accepts s 0 (mkEnv true true true false false)
           (mkArgs 128 1 1024) 0 (mkData (Some 1%nat) 1280) Hinit (sys_run_sound _ _ _ E));
    vm_compute in E; injection E as <-; reflexivity.
Defined.
