(* ===== verification/Memory.v ===== *)
(** * No two accept threads share a working buffer

    The bridge uses two kinds of memory: the completion contexts
    [cb_data], stack variables of [doAccept] (line 55) named by the
    address of their frame, and the working buffers [malloc] returns
    (line 74). Each [doAccept] thread hands its own buffer
    [sWorkingBuffer.buffer] to [phLibNfc_Llcp_Accept] (line 82), and
    libnfc writes the incoming frames of that connection into it; two
    threads holding the same block would have their connections write
    into each other's buffer. The theorem (C24) is that in every
    interleaving of [System] two threads never hold the same buffer,
    because each comes from its own [malloc] and no step frees a block.
    It rests on an invariant proved in the manner of a
    type-preservation argument, one preservation lemma per kind of
    step: [mem_typed] (every address in use below the allocation
    frontier [next_addr], contexts and frames never heap blocks) and
    [buffer_ok] (a thread's buffer pointer is a heap block). The
    invariants are decidable, so a concrete starting state is checked
    by [decide]. *)

From S2P Require Import Prelude Jni Semaphore Transport State Accept AcceptFacts.
From S2P Require Import Close System.

(** The buffer pointer a thread holds at a program point. *)
Definition pc_buffer (pc : accept_pc) : option nat :=
  match pc with
  | AccLock _ _ wb | AccCall _ _ wb | AccWaitCb _ wb => buffer wb
  | _ => None
  end.

Section Typing.
Context {T : Type}.

(** The addresses in use: contexts, live frames, heap blocks. *)
Definition used (w : World T) : gset nat := dom (ctxs w) ∪ frames w ∪ dom (heap w).

Definition mem_typed (w : World T) : Prop :=
  set_Forall (fun x => x < next_addr w) (used w) /\
  dom (ctxs w) ## dom (heap w) /\ frames w ## dom (heap w).

Definition buffer_ok (w : World T) (pc : accept_pc) : Prop :=
  match pc_buffer pc with Some b => b ∈ dom (heap w) | None => True end.

Definition thread_ok (w : World T) (th : thread) : Prop :=
  match th with TAccept _ _ pc => buffer_ok w pc | TClose _ => True end.

(** The invariant of the process: the memory is well typed and every
    buffer pointer a thread holds is a heap block. *)
Definition mem_inv (s : Sys T) : Prop :=
  mem_typed (world s) /\ Forall (thread_ok (world s)) (threads s).

(** The buffer a thread holds, and no two threads holding the same one. *)
Definition thread_buffer (th : thread) : option nat :=
  match th with TAccept _ _ pc => pc_buffer pc | TClose _ => None end.

Definition buffers_distinct (ths : list thread) : Prop :=
  forall i j thi thj b, i <> j -> ths !! i = Some thi -> ths !! j = Some thj ->
    thread_buffer thi = Some b -> thread_buffer thj = Some b -> False.

#[global] Instance mem_typed_dec w : Decision (mem_typed w).
Proof. unfold mem_typed. apply _. Defined.

#[global] Instance thread_ok_dec w th : Decision (thread_ok w th).
Proof. unfold thread_ok, buffer_ok. repeat case_match; apply _. Defined.

#[global] Instance mem_inv_dec s : Decision (mem_inv s).
Proof. unfold mem_inv. apply _. Defined.

End Typing.

(** Addresses in use after a step: the old ones or new ones below the
    new frontier. *)
Ltac below_tac :=
  let x := fresh "x" in let Hx := fresh "Hx" in
  intros x Hx;
  match goal with Hb : forall y, y ∈ _ -> y < ?n |- _ =>
    set_unfold in Hx;
    repeat match type of Hx with _ \/ _ => destruct Hx as [Hx|Hx] end;
    first [subst x; lia
          | assert (x < n) by (apply Hb; clear Hb; set_solver); lia]
  end.

Section MemoryFacts.
Context `{LlcpTransportLaws T}.

Lemma mem_typed_fresh (w : World T) :
  mem_typed w -> (next_addr w ∉ used w) /\ (S (next_addr w) ∉ used w).
Proof. intros [Hb _]. split; intros Hx; apply Hb in Hx; lia. Qed.

Lemma accept_step_typed e i a pc (w : World T) pc' w' :
  mem_typed w -> accept_step e i a pc w = Some (pc', w') -> mem_typed w'.
Proof.
  intros Hm. pose proof (mem_typed_fresh w Hm) as [F1 F2]. revert Hm F1 F2.
  unfold mem_typed, used, set_Forall. intros (Hb & Hd1 & Hd2) F1 F2.
  assert (next_addr w <> S (next_addr w)) by lia.
  destruct pc; cbn [accept_step]; unfold REENTRANCE_LOCK;
    [destruct (listen_sem w) as [[|k]] eqn:Hl; cbn [Sem.sem_trywait Sem.value mbind option_bind];
       [done|] | .. ]; intros Hs; unfold_ops.
  all: repeat match goal with Hk : ?m !! ?k = Some _ |- _ => apply elem_of_dom_2 in Hk end.
  all: rewrite ?dom_insert_L, ?dom_delete_L in *.
  all: split_and!; [below_tac | clear Hb; set_solver | clear Hb; set_solver].
Qed.

(** A step that frees addresses or leaves them is well typed. *)
Lemma mem_typed_shrink (w w' : World T) :
  mem_typed w -> next_addr w <= next_addr w' ->
  dom (ctxs w') ⊆ dom (ctxs w) -> frames w' ⊆ frames w -> dom (heap w') ⊆ dom (heap w) ->
  mem_typed w'.
Proof.
  unfold mem_typed, used, set_Forall. intros (Hb & Hd1 & Hd2) Hn Hc Hf Hh.
  split_and!; [|set_solver..]. intros x Hx.
  assert (x < next_addr w) by (apply Hb; set_solver). lia.
Qed.

Lemma accept_interrupt_typed pc (w : World T) pc' w' :
  mem_typed w -> accept_interrupt pc w = Some (pc', w') -> mem_typed w'.
Proof.
  intros Hm Hs. apply (mem_typed_shrink w); [done|..];
    destruct pc; cbn [accept_interrupt] in Hs; unfold_ops;
    rewrite ?dom_delete_L; set_solver.
Qed.

Lemma close_step_typed i pc (w : World T) pc' w' :
  mem_typed w -> close_step i pc w = Some (pc', w') -> mem_typed w'.
Proof.
  intros Hm Hs. apply (mem_typed_shrink w); [done|..];
    destruct pc; cbn [close_step] in Hs; unfold REENTRANCE_LOCK in Hs; unfold_ops; done.
Qed.

Lemma transport_complete_typed (w w' : World T) :
  mem_typed w -> transport_complete w = Some w' -> mem_typed w'.
Proof.
  intros Hm Hs. apply (mem_typed_shrink w); [done|..]; unfold_ops;
    repeat match goal with Hk : ?m !! ?k = Some _ |- _ => apply elem_of_dom_2 in Hk end;
    rewrite ?dom_insert_L; set_solver.
Qed.

Lemma transport_fail_typed (w w' : World T) :
  mem_typed w -> transport_fail w = Some w' -> mem_typed w'.
Proof. intros Hm Hs. destruct (transport_fail_frame _ _ Hs) as [t' ->]. done. Qed.

(** The heap only grows: no step frees a block. *)
Lemma sys_step_heap (s s' : Sys T) :
  sys_step s s' -> dom (heap (world s)) ⊆ dom (heap (world s')).
Proof.
  destruct 1 as [i e a pc pc' w' ths w n m _ Hs | i e a pc pc' w' ths w n m _ _ _ Hs
                | i pc pc' w' ths w n m _ Hs | w' ths w n m Hs | w' ths w n m Hs | h ths w n m];
    cbn [world].
  - apply (accept_step_heap _ _ _ _ _ _ Hs).
  - by rewrite (accept_interrupt_heap _ _ _ _ Hs).
  - destruct pc; cbn [close_step] in Hs; unfold REENTRANCE_LOCK in Hs; unfold_ops; done.
  - by rewrite (heap_transport_complete _ _ Hs).
  - by destruct (transport_fail_frame _ _ Hs) as [t' ->].
  - done.
Qed.

Lemma threads_ok_mono (w w' : World T) ths :
  dom (heap w) ⊆ dom (heap w') -> Forall (thread_ok w) ths -> Forall (thread_ok w') ths.
Proof.
  intros Hh Hf. eapply Forall_impl; [exact Hf|]. intros [e a pc|pc]; unfold thread_ok, buffer_ok; [|done].
  destruct (pc_buffer pc); set_solver.
Qed.

(** The buffer a thread holds after its step is a heap block: [malloc]
    inserts the block it returns, and the pointer is kept unchanged until
    the thread returns. *)
Lemma accept_step_buffer e i a pc (w : World T) pc' w' :
  buffer_ok w pc -> accept_step e i a pc w = Some (pc', w') -> buffer_ok w' pc'.
Proof.
  intros Hb Hs. pose proof (accept_step_heap _ _ _ _ _ _ Hs) as Hh. cbn [snd] in Hh.
  revert Hb Hs Hh. unfold buffer_ok.
  destruct pc; cbn [accept_step]; unfold REENTRANCE_LOCK;
    [destruct (listen_sem w) as [[|k]] eqn:Hl; cbn [Sem.sem_trywait Sem.value mbind option_bind];
       [done|] | .. ]; intros Hb Hs Hh; unfold_ops; cbn [pc_buffer buffer] in *; try done.
  all: rewrite ?dom_insert_L; set_solver.
Qed.

(** One step of the process keeps the invariant. *)
Lemma mem_inv_step (s s' : Sys T) : sys_step s s' -> mem_inv s -> mem_inv s'.
Proof.
  intros Hs. pose proof (sys_step_heap _ _ Hs) as Hh. revert Hh.
  destruct Hs as [i e a pc pc' w' ths w n m Hi Hs | i e a pc pc' w' ths w n m Hi _ _ Hs
                 | i pc pc' w' ths w n m _ Hs | w' ths w n m Hs | w' ths w n m Hs | h ths w n m];
    unfold mem_inv; cbn [world threads]; intros Hh [Hm Hth];
    (split; [|try (apply Forall_insert; [by eapply threads_ok_mono|])]).
  - by eapply accept_step_typed.
  - eapply accept_step_buffer; [|done]. apply (Forall_lookup_1 _ _ _ _ Hth Hi).
  - by eapply accept_interrupt_typed.
  - destruct pc; cbn [accept_interrupt] in Hs; unfold clean_and_return in Hs; simplify_eq; exact I.
  - by eapply close_step_typed.
  - done.
  - by eapply transport_complete_typed.
  - by eapply threads_ok_mono.
  - by eapply transport_fail_typed.
  - by eapply threads_ok_mono.
  - exact Hm.
  - exact Hth.
Qed.

Lemma thread_ok_buffer (w : World T) th b :
  thread_ok w th -> thread_buffer th = Some b -> b ∈ dom (heap w).
Proof.
  destruct th as [e a pc|]; cbn [thread_ok thread_buffer]; [|done].
  unfold buffer_ok. intros Hb Hp. by rewrite Hp in Hb.
Qed.

Lemma buffers_distinct_none ths :
  Forall (fun th => thread_buffer th = None) ths -> buffers_distinct ths.
Proof.
  intros Hn i j thi thj b _ Hi _ Hb _. rewrite (Forall_lookup_1 _ _ _ _ Hn Hi) in Hb. done.
Qed.

(** What a step does to the buffer a thread holds: it keeps it, drops it,
    or takes a block that was not allocated before. *)
Definition buffer_change (w : World T) (th th' : thread) : Prop :=
  thread_buffer th' = thread_buffer th \/ thread_buffer th' = None \/
  exists b, thread_buffer th' = Some b /\ b ∉ dom (heap w).

Lemma accept_step_buffer_change e i a pc (w : World T) pc' w' :
  mem_typed w -> accept_step e i a pc w = Some (pc', w') ->
  buffer_change w (TAccept e a pc) (TAccept e a pc').
Proof.
  intros Hm. destruct (mem_typed_fresh w Hm) as [_ F2]. revert F2. unfold buffer_change, used.
  destruct pc; cbn [accept_step]; unfold REENTRANCE_LOCK;
    [destruct (listen_sem w) as [[|k]] eqn:Hl; cbn [Sem.sem_trywait Sem.value mbind option_bind];
       [done|] | .. ]; intros F2 Hs; unfold_ops; cbn [thread_buffer pc_buffer buffer];
    first [by left | by right; left | right; right; eexists; split; [done | set_solver]].
Qed.

Lemma buffer_change_apart (w : World T) ths i k th thk th' b :
  ths !! i = Some th -> ths !! k = Some thk -> i <> k ->
  Forall (thread_ok w) ths -> buffers_distinct ths -> buffer_change w th th' ->
  thread_buffer th' = Some b -> thread_buffer thk = Some b -> False.
Proof.
  intros Hi Hk Hik Hok Hd Hc Hb Hbk.
  destruct Hc as [Hc|[Hc|(b' & Hc & Hn)]]; rewrite Hc in Hb; [by eapply (Hd i k) | done |].
  simplify_eq. apply Hn, (thread_ok_buffer w thk), Hbk. apply (Forall_lookup_1 _ _ _ _ Hok Hk).
Qed.

Lemma buffers_distinct_insert (w : World T) ths i th th' :
  ths !! i = Some th -> Forall (thread_ok w) ths -> buffers_distinct ths ->
  buffer_change w th th' -> buffers_distinct (<[i := th']> ths).
Proof.
  intros Hi Hok Hd Hc j k thj thk b Hjk Hj Hk Hbj Hbk.
  apply list_lookup_insert_Some in Hj as [(<- & <- & _)|(Hij & Hj)];
    apply list_lookup_insert_Some in Hk as [(<- & <- & _)|(Hik & Hk)];
    [done | by eapply (buffer_change_apart w ths i k) | by eapply (buffer_change_apart w ths i j)
    | exact (Hd j k thj thk b Hjk Hj Hk Hbj Hbk)].
Qed.

(** One step of the process keeps the buffers of the threads apart. *)
Lemma buffers_distinct_step (s s' : Sys T) :
  sys_step s s' -> mem_inv s -> buffers_distinct (threads s) -> buffers_distinct (threads s').
Proof.
  intros Hs [Hm Hok]. revert Hm Hok.
  destruct Hs as [i e a pc pc' w' ths w n m Hi Hs | i e a pc pc' w' ths w n m Hi _ _ Hs
                 | i pc pc' w' ths w n m Hi Hs | | |]; cbn [world threads]; intros Hm Hok Hd; try done;
    (eapply buffers_distinct_insert; [exact Hi | exact Hok | exact Hd |]).
  - by eapply accept_step_buffer_change.
  - right; left. destruct pc; cbn [accept_interrupt] in Hs; unfold clean_and_return in Hs;
      simplify_eq; done.
  - by right; left.
Qed.

Lemma buffers_distinct_reach (s s' : Sys T) :
  mem_inv s -> buffers_distinct (threads s) -> rtc sys_step s s' -> buffers_distinct (threads s').
Proof.
  intros Hi Hd Hr. revert Hi Hd. induction Hr as [|x y z Hxy _ IH]; [done|].
  intros Hi Hd. apply IH; [by eapply mem_inv_step | by eapply buffers_distinct_step].
Qed.

End MemoryFacts.

Section MemoryTheorems.
Context `{LlcpTransportLaws T}.

(** C24. No two threads share a working buffer (spec, sections 4.2 and
    5): from a well-typed process whose threads hold distinct buffers,
    in every interleaving, two different [doAccept] threads never hold
    the same [sWorkingBuffer.buffer]: each comes from its own [malloc]
    of line 74, a block that was not allocated before, and no step frees
    a block, so libnfc writing an incoming frame into one accept's
    buffer never writes into another's. *)
Theorem buffers_not_shared (s s' : Sys T) :
  mem_inv s -> buffers_distinct (threads s) -> rtc sys_step s s' ->
  forall i j e a pc e' a' pc' b, i <> j ->
    threads s' !! i = Some (TAccept e a pc) -> threads s' !! j = Some (TAccept e' a' pc') ->
    pc_buffer pc = Some b -> pc_buffer pc' <> Some b.
Proof.
  intros Hi Hd Hr i j e a pc e' a' pc' b Hij Hl Hl' Hb Hb'.
  exact (buffers_distinct_reach s s' Hi Hd Hr i j _ _ b Hij Hl Hl' Hb Hb').
Qed.

End MemoryTheorems.

Local Open Scope Z_scope.

Local Abbreviation two_accepts :=
  (mkSys [TAccept (mkEnv true true true false false) (mkArgs 128 1 1024) AccWaitListen;
          TAccept (mkEnv true true true false false) (mkArgs 128 1 1024) AccWaitListen]
         (initial_world 0 5 (SimTransport.mkState [] [] [] ∅)) 0 0).

(** Witness of C24: two connections arrive and both accept threads run
    to the wait of line 95, threads 0 and 1 with the buffers 1 and 3. *)
Lemma buffers_not_shared_witness :
  match sys_run [EvIncoming 7; EvThread 0; EvThread 0; EvThread 0;
                 EvIncoming 9; EvThread 1; EvThread 1; EvThread 1] two_accepts with
  | Some s' =>
      threads s' !! 0%nat = Some (TAccept (mkEnv true true true false false) (mkArgs 128 1 1024)
                                    (AccWaitCb 0 (mkData (Some 1%nat) 1280))) /\
      threads s' !! 1%nat = Some (TAccept (mkEnv true true true false false) (mkArgs 128 1 1024)
                                    (AccWaitCb 2 (mkData (Some 3%nat) 1280))) /\
      pc_buffer (AccWaitCb 2 (mkData (Some 3%nat) 1280)) <> Some 1%nat
  | None => False
  end.
Proof.
  destruct (sys_run _ two_accepts) as [s'|] eqn:E; [|vm_compute in E; discriminate].
  assert (Hinit : bool_decide (mem_inv two_accepts) = true) by (vm_compute; reflexivity).
  apply bool_decide_eq_true in Hinit.
  assert (Hd : buffers_distinct (threads two_accepts)).
  { apply buffers_distinct_none. repeat constructor. }
  assert (H0 : threads s' !! 0%nat = Some (TAccept (mkEnv true true true false false)
                 (mkArgs 128 1 1024) (AccWaitCb 0 (mkData (Some 1%nat) 1280))))
    by (vm_compute in E; injection E as <-; reflexivity).
  assert (H1 : threads s' !! 1%nat = Some (TAccept (mkEnv true true true false false)
                 (mkArgs 128 1 1024) (AccWaitCb 2 (mkData (Some 3%nat) 1280))))
    by (vm_compute in E; injection E as <-; reflexivity).
  split_and!; [exact H0 | exact H1 |].
  exact (buffers_not_shared two_accepts s' Hinit Hd (sys_run_sound _ _ _ E) 0 1 _ _ _ _ _ _ 1
           ltac:(lia) H0 H1 eq_refl).
Defined.
