(* ===== verification/Registration.v ===== *)
(** * JNI registration (lines 165-183)

    The table [gMethods] binds the Java native methods of
    [com.android.nfc.NativeLlcpServiceSocket] to the two C functions, and
    [register_com_android_nfc_NativeLlcpServiceSocket] hands it to
    [jniRegisterNativeMethods] (JNIHelp, not in this repository; modelled
    from its documented behaviour: it fails when the class is unknown and
    otherwise binds every entry). The JVM dispatches a call by name and
    type descriptor, so the descriptors must describe the C signatures:
    [parse_method_descriptor] reads a descriptor, and the theorem checks
    that each registered entry dispatches to the right function with the
    argument and result types of its model. *)

From Stdlib Require Import String Ascii.
From stdpp Require Import strings.
From S2P Require Import Prelude Jni.

(** The C functions of this file that Java can call. *)
Inductive native_fn := Fn_doAccept | Fn_doClose.

#[export] Instance native_fn_eq_dec : EqDecision native_fn.
Proof. solve_decision. Defined.

(** [JNINativeMethod]: name, type descriptor, function pointer. *)
Record JNINativeMethod := mkMethod { name : string; signature : string; fnPtr : native_fn }.

(** [gMethods] (lines 168-175). *)
Definition gMethods : list JNINativeMethod :=
  [mkMethod "doAccept" "(III)Lcom/android/nfc/NativeLlcpSocket;" Fn_doAccept;
   mkMethod "doClose" "()Z" Fn_doClose].

Definition NELEM {A} (l : list A) : nat := List.length l.

(** The JVM's native-method tables: per class, (name, descriptor) to
    function. *)
Definition NativeTables := gmap string (gmap (string * string) native_fn).

(** [jniRegisterNativeMethods(env, className, methods, n)]: [-1] when the
    class is not loaded, [0] after binding the first [n] entries. *)
Definition jniRegisterNativeMethods (tbl : NativeTables) (className : string)
    (methods : list JNINativeMethod) (n : nat) : Z * NativeTables :=
  match tbl !! className with
  | None => ((-1)%Z, tbl)
  | Some cls =>
      (0%Z, <[className := foldl (fun m md => <[(name md, signature md) := fnPtr md]> m)
                          cls (take n methods)]> tbl)
  end.

(** [register_com_android_nfc_NativeLlcpServiceSocket] (lines 178-183). *)
Definition register_com_android_nfc_NativeLlcpServiceSocket (tbl : NativeTables)
    : Z * NativeTables :=
  jniRegisterNativeMethods tbl "com/android/nfc/NativeLlcpServiceSocket" gMethods (NELEM gMethods).

(** ** Type descriptors *)

Inductive jtype := JInt | JBoolean | JVoid | JObject (cls : string).

#[export] Instance jtype_eq_dec : EqDecision jtype.
Proof. solve_decision. Defined.

(** The class name of an [L...;] descriptor, and what follows it. *)
Fixpoint parse_class (l : list ascii) (acc : list ascii) : option (string * list ascii) :=
  match l with
  | [] => None
  | c :: r => if decide (c = ";"%char) then Some (string_of_list_ascii (rev acc), r)
              else parse_class r (c :: acc)
  end.

Definition parse_type (l : list ascii) : option (jtype * list ascii) :=
  match l with
  | "I"%char :: r => Some (JInt, r)
  | "Z"%char :: r => Some (JBoolean, r)
  | "V"%char :: r => Some (JVoid, r)
  | "L"%char :: r => '(cls, r') ← parse_class r []; Some (JObject cls, r')
  | _ => None
  end.

(** The parameter types up to [')'], with fuel: each type consumes at
    least one character, so the length of the input is enough. *)
Fixpoint parse_params (fuel : nat) (l : list ascii) : option (list jtype * list ascii) :=
  match fuel with
  | O => None
  | S f =>
      match l with
      | ")"%char :: r => Some ([], r)
      | _ => '(t, r) ← parse_type l; '(ts, r') ← parse_params f r; Some (t :: ts, r')
      end
  end.

(** [(params)result] *)
Definition parse_method_descriptor (s : string) : option (list jtype * jtype) :=
  let l := list_ascii_of_string s in
  match l with
  | "("%char :: r =>
      '(ps, r') ← parse_params (List.length r) r;
      '(res, rest) ← parse_type r';
      if decide (rest = []) then Some (ps, res) else None
  | _ => None
  end.

(** The Java types of the modelled functions: [doAccept] takes the three
    [jint] fields of [accept_args] and returns a [NativeLlcpSocket] or
    [null]; [doClose] takes nothing and returns a [jboolean]. *)
Definition model_type (f : native_fn) : list jtype * jtype :=
  match f with
  | Fn_doAccept => ([JInt; JInt; JInt], JObject "com/android/nfc/NativeLlcpSocket")
  | Fn_doClose => ([], JBoolean)
  end.

(** C15. Registration: when the class is loaded,
    [register_com_android_nfc_NativeLlcpServiceSocket] returns [0] and
    binds [doAccept] and [doClose] under their names and descriptors, each
    descriptor parsing to the argument and result types of the function
    it is bound to; any other entry of the class is kept. *)
Theorem register_binds_typed (tbl : NativeTables) cls :
  tbl !! "com/android/nfc/NativeLlcpServiceSocket"%string = Some cls ->
  exists cls', register_com_android_nfc_NativeLlcpServiceSocket tbl =
      (0%Z, <["com/android/nfc/NativeLlcpServiceSocket"%string := cls']> tbl) /\
    (forall md, md ∈ gMethods ->
       cls' !! (name md, signature md) = Some (fnPtr md) /\
       parse_method_descriptor (signature md) = Some (model_type (fnPtr md))) /\
    (forall k, k.1 <> "doAccept"%string -> k.1 <> "doClose"%string -> cls' !! k = cls !! k).
Proof.
  intros Hc. unfold register_com_android_nfc_NativeLlcpServiceSocket,
    jniRegisterNativeMethods. rewrite Hc. eexists. split; [reflexivity|]. split.
  - intros md Hmd. apply list_elem_of_In in Hmd. cbn [gMethods In] in Hmd.
    destruct Hmd as [<-|[<-|[]]]; cbn; split; try reflexivity.
    + rewrite lookup_insert_ne by congruence. by rewrite lookup_insert_eq.
    + by rewrite lookup_insert_eq.
  - intros [k1 k2] H1 H2. cbn in *.
    rewrite !lookup_insert_ne by congruence. done.
Qed.

(** Witness of C15: a JVM that has loaded the class with no natives. *)
Lemma register_binds_typed_witness :
  exists cls', register_com_android_nfc_NativeLlcpServiceSocket
      {["com/android/nfc/NativeLlcpServiceSocket"%string := ∅]} =
      (0%Z, <["com/android/nfc/NativeLlcpServiceSocket"%string := cls']>
            {["com/android/nfc/NativeLlcpServiceSocket"%string := ∅]}) /\
    (forall md, md ∈ gMethods ->
       cls' !! (name md, signature md) = Some (fnPtr md) /\
       parse_method_descriptor (signature md) = Some (model_type (fnPtr md))) /\
    (forall k, k.1 <> "doAccept"%string -> k.1 <> "doClose"%string ->
       cls' !! k = (∅ : gmap (string * string) native_fn) !! k).
Proof. apply register_binds_typed. reflexivity. Defined.
